(** * Zone classification of [src/App.jsx]: point-in-polygon, zone lookup,
      registry construction and label placement.

    The JavaScript functions [isPointInPolygon], [findZone],
    [calculatePolygonCenter] and the module-level constant [ZONES] are
    embedded as Rocq functions.  JavaScript numbers are IEEE-754 binary64
    values; they are modelled by Rocq's primitive floats.  The functions are
    written once over an interface of the arithmetic they use, so that the
    same definitions can also be read over the rationals, which is what
    "exact arithmetic" means below. *)

From Stdlib Require Import String ZArith QArith Qfield Lia Lqa Bool List Permutation.
From Stdlib Require Import Floats.
Import ListNotations.

Set Warnings "-inexact-float".

(** ** Numbers *)

(** The operations [App.jsx] applies to numbers: the literal [0], [+], [-],
    [*], [/], the comparisons [>] and [<], and the conversion of an array
    length to a number.  [is_zero] is not used by the program; it is the
    test "this divisor is zero" that the safety statement needs. *)
Class Number (num : Type) : Type := {
  zero : num;
  add : num -> num -> num;
  sub : num -> num -> num;
  mul : num -> num -> num;
  div : num -> num -> num;
  gtb : num -> num -> bool;
  ltb : num -> num -> bool;
  is_zero : num -> bool;
  of_nat : nat -> num
}.

(** JavaScript's Number: binary64, round to nearest even; a comparison with
    NaN is false, and [x / 0] is an infinity or NaN, never an exception. *)
#[export] Instance float_Number : Number float := {
  zero := PrimFloat.zero;
  add := PrimFloat.add;
  sub := PrimFloat.sub;
  mul := PrimFloat.mul;
  div := PrimFloat.div;
  gtb := fun a b => PrimFloat.ltb b a;
  ltb := PrimFloat.ltb;
  is_zero := fun a => PrimFloat.eqb a PrimFloat.zero;
  of_nat := fun n => PrimFloat.of_uint63 (Uint63.of_Z (Z.of_nat n))
}.

Definition Qltb (a b : Q) : bool := negb (Qle_bool b a).

(** Exact arithmetic: the rationals.  [Qdiv a 0] is [0] by convention. *)
#[export] Instance Q_Number : Number Q := {
  zero := 0%Q;
  add := Qplus;
  sub := Qminus;
  mul := Qmult;
  div := Qdiv;
  gtb := fun a b => Qltb b a;
  ltb := Qltb;
  is_zero := fun a => Qeq_bool a 0%Q;
  of_nat := fun n => inject_Z (Z.of_nat n)
}.

(** ** Outcomes of a JavaScript computation *)

(** A call returns a value or throws.  The only exception the modelled code
    can throw is the [TypeError] of reading a property of [undefined].
    [DivByZero] is never produced by JavaScript's [/]; it is the outcome of
    the checked division below.  [OutOfFuel] is the loop bound of the
    embedding running out. *)
Inductive outcome (A : Type) : Type :=
| Val (a : A)
| TypeError
| DivByZero
| OutOfFuel.

Arguments Val {A} a.
Arguments TypeError {A}.
Arguments DivByZero {A}.
Arguments OutOfFuel {A}.

Definition bind {A B : Type} (o : outcome A) (k : A -> outcome B) : outcome B :=
  match o with
  | Val a => k a
  | TypeError => TypeError
  | DivByZero => DivByZero
  | OutOfFuel => OutOfFuel
  end.

Notation "x <- o ;; k" := (bind o (fun x => k))
  (at level 61, o at next level, right associativity).

Definition raises {A : Type} (o : outcome A) : Prop :=
  match o with
  | Val _ => False
  | _ => True
  end.

(** [xs[i]] for a numeric index: [undefined] (here [None]) outside the array. *)
Definition index {A : Type} (xs : list A) (i : Z) : option A :=
  if (i <? 0)%Z then None else nth_error xs (Z.to_nat i).

(** [xs[i][0]], [xs[i][1]]: reading a component of [undefined] throws. *)
Definition elem {A : Type} (xs : list A) (i : Z) : outcome A :=
  match index xs i with
  | Some c => Val c
  | None => TypeError
  end.

(** ** The program *)

Section Program.

Context {num : Type} {N : Number num}.

(** A coordinate is the two-element array [[lng, lat]]. *)
Definition Coordinate : Type := (num * num)%type.

Definition Ring : Type := list Coordinate.

(** JavaScript's [/]. *)
Definition js_div (a b : num) : outcome num := Val (div a b).

(** The same division, except that a zero divisor is reported. *)
Definition checked_div (a b : num) : outcome num :=
  if is_zero b then DivByZero else Val (div a b).

Section PointInPolygon.

(** The division used by the crossing test. *)
Variable divide : num -> num -> outcome num.

(** [((yi > lat) !== (yj > lat)) &&
     (lng < (xj - xi) * (lat - yi) / (yj - yi) + xi)];
    [&&] evaluates its right operand only when the left one is true. *)
Definition intersect_with (lng lat xi yi xj yj : num) : outcome bool :=
  if negb (Bool.eqb (gtb yi lat) (gtb yj lat)) then
    q <- divide (mul (sub xj xi) (sub lat yi)) (sub yj yi) ;;
    Val (ltb lng (add q xi))
  else Val false.

(** [for (let i = 0, j = polygon.length - 1; i < polygon.length; j = i++)].
    The state is [(i, j, inside)]; [fuel] bounds the number of iterations. *)
Fixpoint for_loop (fuel : nat) (lng lat : num) (polygon : Ring)
    (i j : Z) (inside : bool) : outcome bool :=
  if (i <? Z.of_nat (length polygon))%Z then
    match fuel with
    | O => OutOfFuel
    | S fuel' =>
        ci <- elem polygon i ;;
        cj <- elem polygon j ;;
        let '(xi, yi) := ci in
        let '(xj, yj) := cj in
        intersect <- intersect_with lng lat xi yi xj yj ;;
        let inside' := if intersect then negb inside else inside in
        for_loop fuel' lng lat polygon (i + 1)%Z i inside'
    end
  else Val inside.

Definition isPointInPolygon_with (point : Coordinate) (polygon : Ring)
    : outcome bool :=
  let '(lng, lat) := point in
  for_loop (length polygon) lng lat polygon
    0%Z (Z.of_nat (length polygon) - 1)%Z false.

End PointInPolygon.

(** [isPointInPolygon(point, polygon)] of [App.jsx]. *)
Definition isPointInPolygon : Coordinate -> Ring -> outcome bool :=
  isPointInPolygon_with js_div.

(** The same function with every division checked for a zero divisor. *)
Definition isPointInPolygon_checked : Coordinate -> Ring -> outcome bool :=
  isPointInPolygon_with checked_div.

(** A zone record of [fireDistrictZones] / [ZONES]:
    [{ id, name, coordinates, color }].  [coordinates] is the array of rings
    of the interchange format, the outer boundary first; [color] is [None]
    when the property is absent. *)
Record Zone : Type := {
  id : string;
  name : string;
  coordinates : list Ring;
  color : option string
}.

(** [xs.map((x, index) => f(x, index))]. *)
Fixpoint map_index {A B : Type} (f : A -> nat -> B) (xs : list A) (index : nat)
    : list B :=
  match xs with
  | [] => []
  | x :: rest => f x index :: map_index f rest (S index)
  end.

Definition DISTRICT_COLORS : list string :=
  [ "#FF6B6B"; "#4ECDC4"; "#45B7D1"; "#96CEB4"; "#FFEAA7";
    "#DFE6E9"; "#74B9FF"; "#A29BFE"; "#FD79A8"; "#FDCB6E" ]%string.

(** [const ZONES = FIRE_DISTRICT_ZONES.map((zone, index) =>
      ({ ...zone, color: DISTRICT_COLORS[index % DISTRICT_COLORS.length] }))].
    The imported data [FIRE_DISTRICT_ZONES] is the argument; the result is
    the outcome of evaluating the module-level initialiser. *)
Definition ZONES (FIRE_DISTRICT_ZONES : list Zone) : outcome (list Zone) :=
  Val (map_index
         (fun zone index =>
            {| id := id zone;
               name := name zone;
               coordinates := coordinates zone;
               color := nth_error DISTRICT_COLORS
                          (index mod length DISTRICT_COLORS) |})
         FIRE_DISTRICT_ZONES 0).

(** [findZone(coordinates)]: [for (const zone of ZONES)
      if (isPointInPolygon(coordinates, zone.coordinates[0])) return zone;
    return null].  The registry, a module-level constant in the source, is
    an argument.  When [zone.coordinates[0]] is [undefined], the read of
    [polygon.length] in [isPointInPolygon] throws. *)
Fixpoint findZone (registry : list Zone) (point : Coordinate)
    : outcome (option Zone) :=
  match registry with
  | [] => Val None
  | zone :: rest =>
      polygon <- elem (coordinates zone) 0%Z ;;
      found <- isPointInPolygon point polygon ;;
      if found then Val (Some zone) else findZone rest point
  end.

(** [calculatePolygonCenter(coordinates)]: [x] and [y] accumulate from [0]
    over [forEach]; the result is [[x / length, y / length]]. *)
Definition calculatePolygonCenter (ring : Ring) : Coordinate :=
  let '(x, y) :=
    fold_left (fun '(x, y) coord => (add x (fst coord), add y (snd coord)))
      ring (zero, zero) in
  (div x (of_nat (length ring)), div y (of_nat (length ring))).

(** ** What the specification says *)

Definition Edge : Type := (Coordinate * Coordinate)%type.

(** The edges of a ring read as a cycle: each vertex with the next one, the
    vertex after the last being the first. *)
Definition cyclic_edges (ring : Ring) : list Edge :=
  combine ring (tl ring ++ firstn 1 ring).

(** The crossing predicate on the edge from [(xj, yj)] to the vertex
    [(xi, yi)] that follows it. *)
Definition crosses (lng lat : num) (e : Edge) : bool :=
  let '((xj, yj), (xi, yi)) := e in
  negb (Bool.eqb (gtb yi lat) (gtb yj lat))
  && ltb lng (add (div (mul (sub xj xi) (sub lat yi)) (sub yj yi)) xi).

(** Even-odd rule: a flag, initially false, toggled at every crossing edge. *)
Definition even_odd_rule (point : Coordinate) (ring : Ring) : bool :=
  let '(lng, lat) := point in
  fold_left (fun inside e => if crosses lng lat e then negb inside else inside)
    (cyclic_edges ring) false.

(** Number of edges of the ring that the ray from the point crosses. *)
Definition crossings (point : Coordinate) (ring : Ring) : nat :=
  let '(lng, lat) := point in
  length (filter (crosses lng lat) (cyclic_edges ring)).

(** The same polygon with another starting vertex. *)
Definition rotate (k : nat) (ring : Ring) : Ring :=
  skipn (k mod length ring) ring ++ firstn (k mod length ring) ring.

(** A zone contains a point when [isPointInPolygon] says so of its outer
    boundary ring. *)
Definition contains (point : Coordinate) (zone : Zone) : bool :=
  match coordinates zone with
  | [] => false
  | boundary :: _ =>
      match isPointInPolygon point boundary with
      | Val true => true
      | _ => false
      end
  end.

(** A zone as the registry is meant to hold it: it has an outer boundary. *)
Definition has_boundary (zone : Zone) : Prop := coordinates zone <> [].

(** Sum of a list of numbers, added up from [0] in list order. *)
Definition sum (xs : list num) : num := fold_left add xs zero.

(** Arithmetic mean of the vertices, coordinate by coordinate. *)
Definition arithmetic_mean (ring : Ring) : Coordinate :=
  (div (sum (map fst ring)) (of_nat (length ring)),
   div (sum (map snd ring)) (of_nat (length ring))).

(** The crossing test gives the same answer on an edge and on the same edge
    taken in the opposite direction. *)
Definition direction_independent (lng lat : num) (e : Edge) : Prop :=
  crosses lng lat (snd e, fst e) = crosses lng lat e.

End Program.

Arguments Coordinate num : clear implicits.
Arguments Ring num : clear implicits.
Arguments Edge num : clear implicits.
Arguments Zone num : clear implicits.

(** ** Auxiliary definitions *)

(** Whether an odd number of the booleans are true. *)
Definition parity (bs : list bool) : bool := fold_right xorb false bs.

(** The consecutive pairs of a list that is not read as a cycle. *)
Fixpoint path {A : Type} (l : list A) : list (A * A) :=
  match l with
  | a :: (b :: _) as t => (a, b) :: path t
  | _ => []
  end.

Definition swap {A : Type} (e : A * A) : A * A := (snd e, fst e).

(** The edges in the order the loop visits them: the closing edge from the
    last vertex to the first, then the ring's consecutive pairs. *)
Definition visited_edges {num : Type} (ring : Ring num) : list (Edge num) :=
  match rev ring with
  | [] => []
  | vl :: _ => path (vl :: ring)
  end.

(** A zero difference of latitudes leaves the guard of the crossing test
    false: the property of the arithmetic that keeps the division safe. *)
Definition zero_difference_law (num : Type) {N : Number num} : Prop :=
  forall yi yj lat : num,
    is_zero (sub yj yi) = true -> gtb yi lat = gtb yj lat.


(** A zone whose outer boundary has fewer than 3 vertices. *)
Definition malformed {num : Type} (zone : Zone num) : Prop :=
  exists boundary rest,
    coordinates zone = boundary :: rest /\ (length boundary < 3)%nat.

(** The area-weighted centroid of a polygon over the rationals, by the usual
    formula over its edges; what [calculatePolygonCenter] is compared with. *)
Definition cross_term (e : Edge Q) : Q :=
  let '((x0, y0), (x1, y1)) := e in x0 * y1 - x1 * y0.

Definition Qsum (xs : list Q) : Q := fold_right Qplus 0 xs.

Definition signed_area (ring : Ring Q) : Q :=
  (1 # 2) * Qsum (map cross_term (cyclic_edges ring)).

Definition area_centroid (ring : Ring Q) : Coordinate Q :=
  let a := signed_area ring in
  (Qsum (map (fun e => (fst (fst e) + fst (snd e)) * cross_term e)
           (cyclic_edges ring)) / (6 * a),
   Qsum (map (fun e => (snd (fst e) + snd (snd e)) * cross_term e)
           (cyclic_edges ring)) / (6 * a)).

(** ** Concrete rings, points and zones *)

(** The square of the first example zone and its eastern neighbour, which
    shares the edge at longitude -122.1815. *)
Definition square_A : Ring float :=
  [ ((-122.2015)%float, 47.6101%float); ((-122.1815)%float, 47.6101%float);
    ((-122.1815)%float, 47.5901%float); ((-122.2015)%float, 47.5901%float) ].

Definition square_east : Ring float :=
  [ ((-122.1815)%float, 47.6101%float); ((-122.1615)%float, 47.6101%float);
    ((-122.1615)%float, 47.5901%float); ((-122.1815)%float, 47.5901%float) ].

(** A larger square around both. *)
Definition square_outer : Ring float :=
  [ ((-123)%float, 48%float); ((-122)%float, 48%float);
    ((-122)%float, 47%float); ((-123)%float, 47%float) ].

Definition point_A : Coordinate float := ((-122.19)%float, 47.60%float).
Definition point_B : Coordinate float := ((-122.00)%float, 47.60%float).
Definition point_shared_edge : Coordinate float :=
  ((-122.1815)%float, 47.60%float).

Definition zone_with (zone_id : string) (boundary : Ring float) : Zone float :=
  {| id := zone_id; name := zone_id; coordinates := [boundary]; color := None |}.

Definition zone_inner : Zone float := zone_with "inner" square_A.
Definition zone_outer : Zone float := zone_with "outer" square_outer.

(** A triangle and a point one rounding step to the left of its edge from
    [(0, 0)] to [(1, 3)]: [1 / 3] rounds below one third. *)
Definition triangle : Ring float := [ (0, 0); (1, 3); (5, 0) ]%float.
Definition near_edge_point : Coordinate float := ((1 / 3)%float, 1%float).

(** A zone whose boundary is a segment, and a zone with no ring at all. *)
Definition two_vertex_zone : Zone float :=
  zone_with "segment" [ (0, 0); (1, 3) ]%float.

Definition zone_without_ring : Zone float :=
  {| id := "empty"; name := "empty"; coordinates := []; color := None |}.

(** The same segment and point over the rationals. *)
Definition segment_Q : Ring Q := [ (0, 0); (1, 3) ]%Q.
Definition third_Q : Coordinate Q := ((1 # 3)%Q, 1%Q).

(** The square with corners [(0,0)] and [(2,2)], with the midpoint of its
    bottom edge listed as a vertex: the same region as the square. *)
Definition square_with_midpoint : Ring Q :=
  [ (0, 0); (1, 0); (2, 0); (2, 2); (0, 2) ]%Q.

(** ** Further definitions: rectangles *)

(** The ring of an axis-aligned rectangle, from its north-west corner
    clockwise, as the example zones list their corners. *)
Definition rectangle {num : Type} (x0 y0 x1 y1 : num) : Ring num :=
  [ (x0, y1); (x1, y1); (x1, y0); (x0, y0) ].

(** A binary64 number that is a zero or a finite non-zero number, and one
    that is neither a zero nor a NaN, read on its specification. *)
Definition SFfinite (x : spec_float) : Prop :=
  match x with
  | S754_zero _ | S754_finite _ _ _ => True
  | _ => False
  end.

Definition SFdivisor (x : spec_float) : Prop :=
  match x with
  | S754_infinity _ | S754_finite _ _ _ => True
  | _ => False
  end.

Definition SFzero (x : spec_float) : Prop :=
  match x with
  | S754_zero _ => True
  | _ => False
  end.

(** ** Further definitions: the scan of [findZone] *)

(** A zone that the scan of [findZone] passes over: it has a boundary, and
    the boundary does not contain the point. *)
Definition skipped {num : Type} {N : Number num}
    (point : Coordinate num) (zone : Zone num) : Prop :=
  has_boundary zone /\ contains point zone = false.

(** The registry, up to a first zone that has no ring.  [findZone] throws
    exactly when the registry has this shape. *)
Definition stops_at_ringless {num : Type} {N : Number num}
    (point : Coordinate num) (registry : list (Zone num)) : Prop :=
  exists before zone after,
    registry = before ++ zone :: after
    /\ coordinates zone = []
    /\ Forall (skipped point) before.

(** The registry, up to a first zone that contains the point. *)
Definition first_containing {num : Type} {N : Number num}
    (point : Coordinate num) (registry : list (Zone num)) (zone : Zone num)
    : Prop :=
  exists before after,
    registry = before ++ zone :: after
    /\ contains point zone = true
    /\ Forall (skipped point) before.

(** ** Further concrete zones *)

Definition zone_east : Zone float := zone_with "east" square_east.

(** A small ring whose coordinates are not binary64 numbers exactly. *)
Definition ring_tenths : Ring float :=
  [ (0.1, 47.1); (0.2, 47.2); (0.3, 47.3) ]%float.

(** ** Further definitions: the map's load handler *)

(** The calls of [App.jsx] into the map library; the fill layer is the one
    painted with opacity 0.3, the line layer the one of width 2.  The label
    of a zone, [new mapboxgl.Marker({color}).setLngLat(center).setPopup(...)
    .addTo(map)], is one call. *)
Inductive LayerType : Type := fill | line.

Inductive MapCall (num : Type) : Type :=
| addSource (source_id : string) (polygon : list (Ring num))
| addLayer (layer_id : string) (layer_type : LayerType) (source : string)
    (paint_color : option string)
| addMarker (marker_color : option string) (lngLat : Coordinate num)
    (popup_html : string).

Arguments addSource {num} source_id polygon.
Arguments addLayer {num} layer_id layer_type source paint_color.
Arguments addMarker {num} marker_color lngLat popup_html.

(** The map library is not part of the source, so whether one of its calls
    returns or throws is an input of the model: [library log call] tells
    whether [call] returns when the calls of [log] are those that have
    returned so far. *)
Definition MapLibrary (num : Type) : Type :=
  list (MapCall num) -> MapCall num -> bool.

(** How the load handler ends: it returns, or [calculatePolygonCenter] throws
    a [TypeError], or a call into the map library throws. *)
Inductive LoadResult (num : Type) : Type :=
| load_returned
| load_TypeError
| load_refused (call : MapCall num).

Arguments load_returned {num}.
Arguments load_TypeError {num}.
Arguments load_refused {num} call.

(** Calls made one after the other: the first one that throws ends them.  The
    result is the calls that have returned, and the call that threw if any. *)
Fixpoint make_calls {num : Type} (library : MapLibrary num)
    (calls log : list (MapCall num))
    : list (MapCall num) * option (MapCall num) :=
  match calls with
  | [] => (log, None)
  | call :: rest =>
      if library log call then make_calls library rest (log ++ [call])
      else (log, Some call)
  end.

(** The source and the two layers of a zone, and its label. *)
Definition zone_layers {num : Type} (zone : Zone num) : list (MapCall num) :=
  [ addSource (id zone) (coordinates zone);
    addLayer (id zone ++ "-fill") fill (id zone) (color zone);
    addLayer (id zone ++ "-outline") line (id zone) (color zone) ].

Definition zone_marker {num : Type} {N : Number num} (zone : Zone num)
    (ring : Ring num) : MapCall num :=
  addMarker (color zone) (calculatePolygonCenter ring)
    ("<strong>" ++ name zone ++ "</strong>").

(** The body of [ZONES.forEach(zone => ...)] in the load handler, from the
    calls that have returned so far to those that have returned after it, and
    how it ends.  The source and the two layers are added first;
    [calculatePolygonCenter(zone.coordinates[0])] then throws at
    [coordinates.forEach] when the zone has no ring; the label comes last. *)
Definition zone_calls {num : Type} {N : Number num} (library : MapLibrary num)
    (zone : Zone num) (log : list (MapCall num))
    : list (MapCall num) * LoadResult num :=
  match make_calls library (zone_layers zone) log with
  | (log, Some call) => (log, load_refused call)
  | (log, None) =>
      match elem (coordinates zone) 0%Z with
      | Val ring =>
          match make_calls library [zone_marker zone ring] log with
          | (log, Some call) => (log, load_refused call)
          | (log, None) => (log, load_returned)
          end
      | _ => (log, load_TypeError)
      end
  end.

(** [ZONES.forEach(...)]: an exception in the callback ends the [forEach]. *)
Fixpoint load_zones {num : Type} {N : Number num} (library : MapLibrary num)
    (registry : list (Zone num)) (log : list (MapCall num))
    : list (MapCall num) * LoadResult num :=
  match registry with
  | [] => (log, load_returned)
  | zone :: rest =>
      match zone_calls library zone log with
      | (log, load_returned) => load_zones library rest log
      | stopped => stopped
      end
  end.

(** [map.current.on('load', () => { ZONES.forEach(...) })]: the calls that
    have returned, in order, and how the handler ends. *)
Definition on_load {num : Type} {N : Number num} (library : MapLibrary num)
    (registry : list (Zone num)) : list (MapCall num) * LoadResult num :=
  load_zones library registry [].

(** The calls the body of the [forEach] goes on to make for a zone: no label
    for a zone without a ring. *)
Definition planned_calls {num : Type} {N : Number num} (zone : Zone num)
    : list (MapCall num) :=
  zone_layers zone
  ++ match coordinates zone with
     | ring :: _ => [zone_marker zone ring]
     | [] => []
     end.

(** Whether a library lets all of some calls return. *)
Definition accepted {num : Type} (library : MapLibrary num)
    (calls : list (MapCall num)) : Prop :=
  make_calls library calls [] = (calls, None).

(** Two libraries to run the handler with: one whose calls all return, and
    one that throws when a label is placed at a position that is not a
    number. *)
Definition lenient {num : Type} : MapLibrary num := fun _ _ => true.

Definition refuses_nan : MapLibrary float :=
  fun _ call =>
    match call with
    | addMarker _ (lng, lat) _ =>
        negb (PrimFloat.is_nan lng || PrimFloat.is_nan lat)
    | _ => true
    end.

(** The identifiers of the sources and of the layers among some calls. *)
Definition source_ids {num : Type} (calls : list (MapCall num)) : list string :=
  flat_map (fun c => match c with addSource s _ => [s] | _ => [] end) calls.

Definition layer_ids {num : Type} (calls : list (MapCall num)) : list string :=
  flat_map (fun c => match c with addLayer s _ _ _ => [s] | _ => [] end) calls.

Definition markers {num : Type} (calls : list (MapCall num))
    : list (Coordinate num) :=
  flat_map (fun c => match c with addMarker _ p _ => [p] | _ => [] end) calls.

(** The last character of a string. *)
Fixpoint last_char (s : string) : option Ascii.ascii :=
  match s with
  | EmptyString => None
  | String c EmptyString => Some c
  | String _ rest => last_char rest
  end.

(** ** Further definitions: the address search *)

(** A feature of the geocoder's answer: [center] is [None] when the property
    is missing. *)
Record Feature (num : Type) : Type := {
  center : option (Coordinate num);
  place_name : string
}.

Arguments center {num} _.
Arguments place_name {num} _.

(** What [await fetch(...)] and [await response.json()] give: a rejection,
    or the parsed [data], whose [features] is [None] when it is missing. *)
Inductive Geocoded (num : Type) : Type :=
| rejected
| data (features : option (list (Feature num))).

Arguments rejected {num}.
Arguments data {num} features.

(** The state hooks of [App] that the search reads or writes. *)
Record AppState (num : Type) : Type := {
  lng : num;
  lat : num;
  address : string;
  currentZone : option (Zone num);
  loading : bool;
  error : option string
}.

Arguments lng {num} _.
Arguments lat {num} _.
Arguments address {num} _.
Arguments currentZone {num} _.
Arguments loading {num} _.
Arguments error {num} _.

Definition ADDRESS_NOT_FOUND : string :=
  "Address not found. Please try a different address.".

Definition ERROR_GEOCODING : string :=
  "Error geocoding address. Please try again.".

(** The state once the handler has run up to its first [await]:
    [setLoading(true); setError(null); setCurrentZone(null)]. *)
Definition search_started {num : Type} (s : AppState num) : AppState num :=
  {| lng := lng s; lat := lat s; address := address s;
     currentZone := None; loading := true; error := None |}.

(** The [try] block of [handleAddressSearch], from the geocoder's answer:
    the state it leaves, or [None] when it throws.  [map_ok] says whether the
    calls into the map ([flyTo], the marker) return.  Every state update of
    the first branch comes after the calls that can throw. *)
Definition search_try {num : Type} {N : Number num}
    (registry : list (Zone num)) (geocoded : Geocoded num) (map_ok : bool)
    (s : AppState num) : option (AppState num) :=
  match geocoded with
  | rejected => None
  | data (Some (feature :: _)) =>
      match center feature with
      | None => None
      | Some point =>
          if map_ok then
            match findZone registry point with
            | Val zone =>
                Some {| lng := fst point; lat := snd point;
                        address := address s; currentZone := zone;
                        loading := loading s; error := error s |}
            | _ => None
            end
          else None
      end
  | data _ =>
      Some {| lng := lng s; lat := lat s; address := address s;
              currentZone := currentZone s; loading := loading s;
              error := Some ADDRESS_NOT_FOUND |}
  end.

(** [handleAddressSearch(e)], from the state when the form is submitted to
    the state when the handler has finished: the [catch] sets the error, the
    [finally] clears [loading]. *)
Definition handleAddressSearch {num : Type} {N : Number num}
    (registry : list (Zone num)) (geocoded : Geocoded num) (map_ok : bool)
    (s : AppState num) : AppState num :=
  let started := search_started s in
  let settled :=
    match search_try registry geocoded map_ok started with
    | Some s' => s'
    | None =>
        {| lng := lng started; lat := lat started;
           address := address started; currentZone := currentZone started;
           loading := loading started; error := Some ERROR_GEOCODING |}
    end in
  {| lng := lng settled; lat := lat settled; address := address settled;
     currentZone := currentZone settled; loading := false;
     error := error settled |}.

(** JavaScript's truthiness of a string. *)
Definition truthy (s : string) : bool := negb (String.eqb s "").

(** The three conditional panels of the sidebar:
    [{error && ...}], [{currentZone && ...}] and
    [{!loading && !currentZone && !error && address && ...}]. *)
Definition shows_error {num : Type} (s : AppState num) : bool :=
  match error s with
  | Some message => truthy message
  | None => false
  end.

Definition shows_zone {num : Type} (s : AppState num) : bool :=
  match currentZone s with
  | Some _ => true
  | None => false
  end.

Definition shows_no_zone {num : Type} (s : AppState num) : bool :=
  negb (loading s) && negb (shows_zone s) && negb (shows_error s)
  && truthy (address s).

(** A state of the application before a search, and an answer of the
    geocoder with one feature at the point of scenario A. *)
Definition idle_state : AppState float :=
  {| lng := (-122.2015)%float; lat := 47.6101%float; address := "1 Main St";
     currentZone := None; loading := false; error := None |}.

Definition answer_A : Geocoded float :=
  data (Some [ {| center := Some point_A; place_name := "1 Main St" |} ]).

(** ** Further definitions: moving a ring, and results without colours *)

(** The ring moved by [dx] in longitude and [dy] in latitude. *)
Definition translate {num : Type} {N : Number num} (dx dy : num)
    (v : Coordinate num) : Coordinate num :=
  (add (fst v) dx, add (snd v) dy).

(** What [findZone] found, without the colour: id, name and boundary. *)
Definition found_zone {num : Type} (o : outcome (option (Zone num)))
    : outcome (option (string * string * list (Ring num))) :=
  match o with
  | Val (Some z) => Val (Some (id z, name z, coordinates z))
  | Val None => Val None
  | TypeError => TypeError
  | DivByZero => DivByZero
  | OutOfFuel => OutOfFuel
  end.

(** A zone whose only ring has no vertex. *)
Definition zone_empty_ring : Zone float :=
  {| id := "hollow"; name := "hollow"; coordinates := [ [] ]; color := None |}.


(** ** Lists of booleans and of edges *)

Lemma parity_cons (b : bool) (l : list bool) :
  parity (b :: l) = xorb b (parity l).
Proof. reflexivity. Qed.

Lemma parity_app (l1 l2 : list bool) :
  parity (l1 ++ l2) = xorb (parity l1) (parity l2).
Proof.
  induction l1 as [|b l1 IH]; simpl.
  - now destruct (parity l2).
  - rewrite IH. now rewrite xorb_assoc.
Qed.

Lemma parity_Permutation (l1 l2 : list bool) :
  Permutation l1 l2 -> parity l1 = parity l2.
Proof.
  induction 1 as [|b l l' _ IH|a b l|l l' l'' _ IH1 _ IH2]; simpl.
  - reflexivity.
  - now rewrite IH.
  - now destruct a, b, (parity l).
  - now rewrite IH1.
Qed.

Lemma parity_odd_count {A : Type} (f : A -> bool) (l : list A) :
  parity (map f l) = Nat.odd (length (filter f l)).
Proof.
  induction l as [|a l IH]; simpl; [reflexivity|].
  destruct (f a); simpl; rewrite IH.
  - now rewrite Nat.odd_succ, <- Nat.negb_odd.
  - reflexivity.
Qed.

Lemma toggle_fold {A : Type} (f : A -> bool) (l : list A) (inside : bool) :
  fold_left (fun inside e => if f e then negb inside else inside) l inside
  = xorb inside (parity (map f l)).
Proof.
  revert inside; induction l as [|a l IH]; intros inside; simpl.
  - now rewrite xorb_false_r.
  - rewrite IH. destruct (f a), inside, (parity (map f l)); reflexivity.
Qed.

Lemma path_app_mid {A : Type} (l1 l2 : list A) (x : A) :
  path (l1 ++ x :: l2) = path (l1 ++ [x]) ++ path (x :: l2).
Proof.
  induction l1 as [|a [|c l1] IH]; try reflexivity.
  change (path ((a :: c :: l1) ++ x :: l2))
    with ((a, c) :: path ((c :: l1) ++ x :: l2)).
  now rewrite IH.
Qed.

Lemma path_rev {A : Type} (l : list A) :
  path (rev l) = map swap (rev (path l)).
Proof.
  induction l as [|a [|b l] IH]; try reflexivity.
  change (path (a :: b :: l)) with ((a, b) :: path (b :: l)).
  change (rev (a :: b :: l)) with ((rev l ++ [b]) ++ [a]).
  rewrite <- app_assoc. simpl app at 2.
  rewrite path_app_mid.
  change (rev l ++ [b]) with (rev (b :: l)). rewrite IH.
  simpl rev at 2. now rewrite map_app.
Qed.

Lemma combine_path {A : Type} (l : list A) (a x : A) :
  combine (a :: l) (l ++ [x]) = path (a :: l ++ [x]).
Proof.
  revert a; induction l as [|b l IH]; intros a; [reflexivity|].
  simpl combine. simpl path. f_equal. apply IH.
Qed.

Lemma index_app_length {A : Type} (pre suf : list A) (v : A) :
  index (pre ++ v :: suf) (Z.of_nat (length pre)) = Some v.
Proof.
  unfold index.
  destruct (Z.ltb_spec (Z.of_nat (length pre)) 0) as [H|_]; [lia|].
  rewrite Nat2Z.id, nth_error_app2 by lia.
  now rewrite Nat.sub_diag.
Qed.

Lemma index_last {A : Type} (l : list A) (v : A) :
  index (l ++ [v]) (Z.of_nat (length (l ++ [v])) - 1) = Some v.
Proof.
  replace (Z.of_nat (length (l ++ [v])) - 1)%Z with (Z.of_nat (length l)).
  - apply index_app_length.
  - rewrite length_app. simpl length. lia.
Qed.

(** ** The loop of [isPointInPolygon] *)

Section Loop.

Context {num : Type} {N : Number num}.

Lemma crosses_self (lng lat : num) (v : Coordinate num) :
  crosses lng lat (v, v) = false.
Proof.
  destruct v as [x y]. unfold crosses. now rewrite Bool.eqb_reflx.
Qed.

Lemma intersect_with_js_div (lng lat xi yi xj yj : num) :
  intersect_with js_div lng lat xi yi xj yj
  = Val (crosses lng lat ((xj, yj), (xi, yi))).
Proof.
  unfold intersect_with, crosses, js_div.
  now destruct (negb (Bool.eqb (gtb yi lat) (gtb yj lat))).
Qed.

Section AnyDivision.

Variable divide : num -> num -> outcome num.

Hypothesis divide_crosses : forall lng lat xi yi xj yj,
  intersect_with divide lng lat xi yi xj yj
  = Val (crosses lng lat ((xj, yj), (xi, yi))).

(** Invariant of the loop: with [pre] already visited, [prev] at index [j]
    and [suf] still to visit, the loop ends, and it ends with the flag
    toggled once for every crossing edge along [prev :: suf]. *)
Lemma for_loop_run (lng lat : num) (suf pre : Ring num) :
  forall (prev : Coordinate num) (fuel : nat) (j : Z) (inside : bool),
    (suf <> [] -> index (pre ++ suf) j = Some prev) ->
    (length suf <= fuel)%nat ->
    for_loop divide fuel lng lat (pre ++ suf) (Z.of_nat (length pre)) j inside
    = Val (xorb inside (parity (map (crosses lng lat) (path (prev :: suf))))).
Proof.
  revert pre; induction suf as [|v suf IH]; intros pre prev fuel j inside Hj Hfuel.
  - rewrite app_nil_r. destruct fuel; simpl; rewrite Z.ltb_irrefl;
      now rewrite xorb_false_r.
  - destruct fuel as [|fuel]; [simpl in Hfuel; lia|].
    simpl for_loop. unfold Ring, Coordinate in *.
    destruct (Z.ltb_spec (Z.of_nat (length pre))
                (Z.of_nat (length (pre ++ v :: suf)))) as [_|H];
      [|rewrite length_app in H; simpl in H; lia].
    unfold elem at 1. rewrite index_app_length. simpl bind at 1.
    unfold elem at 1. rewrite Hj by discriminate. simpl bind at 1.
    destruct v as [xi yi], prev as [xj yj].
    rewrite divide_crosses.
    set (c := crosses lng lat ((xj, yj), (xi, yi))). cbn [bind].
    match goal with
    | |- for_loop _ _ _ _ _ _ _ ?b = _ =>
        specialize (IH (pre ++ [(xi, yi)]) (xi, yi) fuel
                      (Z.of_nat (length pre)) b)
    end.
    rewrite <- app_assoc, length_app, Nat2Z.inj_add in IH.
    change (Z.of_nat (length [(xi, yi)])) with 1%Z in IH.
    change ([(xi, yi)] ++ suf) with ((xi, yi) :: suf) in IH.
    etransitivity; [apply IH|].
    + intros _. apply index_app_length.
    + simpl in Hfuel. lia.
    + f_equal.
      change (path ((xj, yj) :: (xi, yi) :: suf))
        with (((xj, yj), (xi, yi)) :: path ((xi, yi) :: suf)).
      cbn [map]. fold c. rewrite parity_cons.
      generalize (parity (map (crosses lng lat) (path ((xi, yi) :: suf)))).
      intros p. destruct c, inside, p; reflexivity.
Qed.

Lemma isPointInPolygon_with_visited (point : Coordinate num) (ring : Ring num) :
  isPointInPolygon_with divide point ring
  = Val (parity (map (crosses (fst point) (snd point)) (visited_edges ring))).
Proof.
  destruct point as [lng lat]. unfold isPointInPolygon_with, visited_edges.
  destruct (rev ring) as [|vl r] eqn:E.
  - apply (f_equal (@rev _)) in E. rewrite rev_involutive in E. subst ring.
    reflexivity.
  - apply (f_equal (@rev _)) in E. rewrite rev_involutive in E.
    simpl rev in E. subst ring.
    apply (for_loop_run lng lat (rev r ++ [vl]) [] vl); [|reflexivity].
    intros _. apply index_last.
Qed.

End AnyDivision.

End Loop.

(** ** Edges of a ring *)

Section Edges.

Context {num : Type} {N : Number num}.

Lemma ring_last {A : Type} (v0 : A) (r : list A) :
  exists r' vl, v0 :: r = r' ++ [vl].
Proof.
  destruct (@exists_last A (v0 :: r)) as [r' [vl E]]; [discriminate|].
  now exists r', vl.
Qed.

Lemma cyclic_edges_cons (v : Coordinate num) (r : Ring num) :
  cyclic_edges (v :: r) = path (v :: r ++ [v]).
Proof. unfold cyclic_edges. simpl tl. simpl firstn. apply combine_path. Qed.

Lemma cyclic_edges_closing (v0 vl : Coordinate num) (r r' : Ring num) :
  v0 :: r = r' ++ [vl] ->
  cyclic_edges (v0 :: r) = path (v0 :: r) ++ [(vl, v0)].
Proof.
  intros E. rewrite cyclic_edges_cons.
  change (v0 :: r ++ [v0]) with ((v0 :: r) ++ [v0]).
  rewrite E, <- app_assoc. simpl app at 2.
  now rewrite path_app_mid.
Qed.

Lemma visited_edges_closing (v0 vl : Coordinate num) (r r' : Ring num) :
  v0 :: r = r' ++ [vl] ->
  visited_edges (v0 :: r) = (vl, v0) :: path (v0 :: r).
Proof.
  intros E. unfold visited_edges. rewrite E at 1.
  now rewrite rev_app_distr.
Qed.

Lemma visited_cyclic_Permutation (ring : Ring num) :
  Permutation (visited_edges ring) (cyclic_edges ring).
Proof.
  destruct ring as [|v0 r]; [constructor|].
  destruct (ring_last v0 r) as (r' & vl & E).
  rewrite (visited_edges_closing _ _ _ _ E), (cyclic_edges_closing _ _ _ _ E).
  apply Permutation_cons_append.
Qed.

(** The function is the parity of the crossings over the ring's cyclic
    edges, whatever the order in which they are visited. *)
Lemma isPointInPolygon_parity (point : Coordinate num) (ring : Ring num) :
  isPointInPolygon point ring
  = Val (parity (map (crosses (fst point) (snd point)) (cyclic_edges ring))).
Proof.
  unfold isPointInPolygon.
  rewrite (isPointInPolygon_with_visited _ intersect_with_js_div).
  f_equal. apply parity_Permutation, Permutation_map, visited_cyclic_Permutation.
Qed.

Lemma even_odd_rule_parity (point : Coordinate num) (ring : Ring num) :
  even_odd_rule point ring
  = parity (map (crosses (fst point) (snd point)) (cyclic_edges ring)).
Proof.
  destruct point as [lng lat]. unfold even_odd_rule. now rewrite toggle_fold.
Qed.

Lemma isPointInPolygon_returns (point : Coordinate num) (ring : Ring num) :
  exists inside, isPointInPolygon point ring = Val inside.
Proof. eexists. apply isPointInPolygon_parity. Qed.

Lemma cyclic_edges_rotate (l1 l2 : Ring num) :
  Permutation (cyclic_edges (l2 ++ l1)) (cyclic_edges (l1 ++ l2)).
Proof.
  destruct l1 as [|a l1]; [now rewrite app_nil_r|].
  destruct l2 as [|b l2]; [now rewrite app_nil_r|].
  simpl app. rewrite !cyclic_edges_cons.
  change (b :: (l2 ++ a :: l1) ++ [b]) with ((b :: l2 ++ a :: l1) ++ [b]).
  change (a :: (l1 ++ b :: l2) ++ [a]) with ((a :: l1 ++ b :: l2) ++ [a]).
  change (b :: l2 ++ a :: l1) with ((b :: l2) ++ a :: l1).
  change (a :: l1 ++ b :: l2) with ((a :: l1) ++ b :: l2).
  rewrite <- !app_assoc. simpl app at 2 4.
  rewrite (path_app_mid (b :: l2)), (path_app_mid (a :: l1)).
  apply Permutation_app_comm.
Qed.

Lemma cyclic_edges_rev (ring : Ring num) :
  Permutation (cyclic_edges (rev ring)) (map swap (cyclic_edges ring)).
Proof.
  destruct ring as [|v0 r]; [constructor|].
  destruct (ring_last v0 r) as (r' & vl & E).
  rewrite (cyclic_edges_closing _ _ _ _ E), map_app.
  assert (E' : vl :: rev r' = rev r ++ [v0]).
  { change (rev r ++ [v0]) with (rev (v0 :: r)). rewrite E, rev_app_distr.
    reflexivity. }
  change (rev (v0 :: r)) with (rev r ++ [v0]). rewrite <- E'.
  rewrite (cyclic_edges_closing _ _ _ _ E').
  change (rev r ++ [v0]) with (rev (v0 :: r)) in E'. rewrite E', path_rev.
  apply Permutation_app_tail, Permutation_map, Permutation_sym, Permutation_rev.
Qed.

End Edges.

(** ** The point-in-polygon test *)

(** Lists the edges of a ring given by its vertices, and the parity over
    them, without unfolding the crossing test. *)
Ltac unfold_edges :=
  unfold cyclic_edges; cbn [tl firstn app combine map parity fold_right].

(** C2.  For every point and every ring, [isPointInPolygon] returns, and what
    it returns is the even-odd rule: the flag that starts false and is
    toggled at each edge of the cyclic ring (each vertex with the next, the
    first after the last) for which [(yi > lat) != (yj > lat)] and
    [lng < (xj - xi) * (lat - yi) / (yj - yi) + xi] hold, [(xi, yi)] being the
    later and [(xj, yj)] the earlier vertex of the edge; equivalently, whether
    the number of such edges is odd. *)
Theorem isPointInPolygon_even_odd {num : Type} {N : Number num}
    (point : Coordinate num) (ring : Ring num) :
  isPointInPolygon point ring = Val (even_odd_rule point ring)
  /\ even_odd_rule point ring = Nat.odd (crossings point ring).
Proof.
  rewrite isPointInPolygon_parity, even_odd_rule_parity. split; [reflexivity|].
  destruct point as [lng lat]. apply parity_odd_count.
Qed.

(** C4.  Rotating the vertex list of a ring by any amount [k] does not change
    the result of [isPointInPolygon] at any point.  This holds for every
    ring, so in particular for those of at least 3 vertices. *)
Theorem isPointInPolygon_rotate {num : Type} {N : Number num}
    (point : Coordinate num) (ring : Ring num) (k : nat) :
  isPointInPolygon point (rotate k ring) = isPointInPolygon point ring.
Proof.
  rewrite !isPointInPolygon_parity. f_equal.
  apply parity_Permutation, Permutation_map. unfold rotate.
  generalize (k mod length ring)%nat. intros m.
  rewrite <- (firstn_skipn m ring) at 3.
  apply cyclic_edges_rotate.
Qed.

(** C5.  A ring given with its first vertex repeated at the end gives the
    same result as the same ring without that duplicate, for every ring that
    has a first vertex and for every point. *)
Theorem isPointInPolygon_closed {num : Type} {N : Number num}
    (point : Coordinate num) (v : Coordinate num) (rest : Ring num) :
  isPointInPolygon point ((v :: rest) ++ [v])
  = isPointInPolygon point (v :: rest).
Proof.
  rewrite !isPointInPolygon_parity. f_equal.
  change ((v :: rest) ++ [v]) with (v :: (rest ++ [v])).
  rewrite (cyclic_edges_cons v (rest ++ [v])), (cyclic_edges_cons v rest).
  assert (E : v :: (rest ++ [v]) ++ [v] = (v :: rest) ++ v :: [v])
    by (simpl; now rewrite <- app_assoc).
  rewrite E, path_app_mid, map_app, parity_app.
  change (path [v; v]) with [(v, v)].
  change (map (crosses (fst point) (snd point)) [(v, v)])
    with [crosses (fst point) (snd point) (v, v)].
  rewrite crosses_self. apply xorb_false_r.
Qed.

(** Reversal, for a ring on whose edges the crossing test does not depend on
    the direction in which the edge is taken. *)
Lemma reversal_if_direction_independent {num : Type} {N : Number num}
    (point : Coordinate num) (ring : Ring num) :
  Forall (direction_independent (fst point) (snd point)) (cyclic_edges ring) ->
  isPointInPolygon point (rev ring) = isPointInPolygon point ring.
Proof.
  intros H. rewrite !isPointInPolygon_parity. f_equal.
  rewrite (parity_Permutation _ _
             (Permutation_map _ (cyclic_edges_rev ring))).
  rewrite map_map. f_equal. apply map_ext_Forall.
  eapply Forall_impl; [|exact H]. intros e He. exact He.
Qed.

(** A ring with fewer than 3 vertices, under the same condition. *)
Lemma degenerate_if_direction_independent {num : Type} {N : Number num}
    (point : Coordinate num) (ring : Ring num) :
  (forall e, direction_independent (fst point) (snd point) e) ->
  (length ring < 3)%nat ->
  isPointInPolygon point ring = Val false.
Proof.
  intros H Hlen. rewrite isPointInPolygon_parity. f_equal.
  destruct ring as [|a [|b [|c r]]]; [reflexivity| | |simpl in Hlen; lia].
  - unfold_edges. now rewrite crosses_self.
  - unfold_edges. rewrite <- (H (a, b)). cbn [fst snd].
    now destruct (crosses (fst point) (snd point) (b, a)).
Qed.

(** ** Label placement *)

Lemma fold_left_pairs {num : Type} {N : Number num}
    (ring : Ring num) (x y : num) :
  fold_left (fun '(x, y) coord => (add x (fst coord), add y (snd coord)))
    ring (x, y)
  = (fold_left add (map fst ring) x, fold_left add (map snd ring) y).
Proof.
  revert x y; induction ring as [|c ring IH]; intros x y; [reflexivity|].
  simpl. apply IH.
Qed.

Lemma center_is_arithmetic_mean {num : Type} {N : Number num}
    (ring : Ring num) :
  calculatePolygonCenter ring = arithmetic_mean ring.
Proof.
  unfold calculatePolygonCenter, arithmetic_mean, sum.
  now rewrite fold_left_pairs.
Qed.

(** ** Exact arithmetic *)

Lemma Qltb_comp (a a' b b' : Q) :
  a == a' -> b == b' -> Qltb a b = Qltb a' b'.
Proof.
  intros Ha Hb. unfold Qltb. f_equal. now apply Qleb_comp.
Qed.

Lemma Q_guard_distinct (yi yj lat : Q) :
  negb (Bool.eqb (Qltb lat yi) (Qltb lat yj)) = true -> ~ yj - yi == 0.
Proof.
  intros H E.
  rewrite (Qltb_comp lat lat yi yj) in H; [|reflexivity|].
  - now rewrite Bool.eqb_reflx in H.
  - symmetry. lra.
Qed.

Lemma Q_crosses_swap (lng lat : Q) (e : Edge Q) :
  direction_independent lng lat e.
Proof.
  destruct e as [[xj yj] [xi yi]]. unfold direction_independent, crosses.
  cbn [fst snd gtb ltb add sub mul div Q_Number].
  replace (Bool.eqb (Qltb lat yj) (Qltb lat yi))
    with (Bool.eqb (Qltb lat yi) (Qltb lat yj))
    by (now destruct (Qltb lat yi), (Qltb lat yj)).
  destruct (negb (Bool.eqb (Qltb lat yi) (Qltb lat yj))) eqn:G;
    [|reflexivity].
  apply Q_guard_distinct in G. cbn [andb].
  apply Qltb_comp; [reflexivity|].
  field. split; intros E; apply G; lra.
Qed.

Lemma Q_zero_difference : zero_difference_law Q.
Proof.
  intros yi yj lat H. cbn [is_zero sub gtb Q_Number] in *.
  apply Qeq_bool_iff in H. apply Qltb_comp; [reflexivity|lra].
Qed.

(** ** Binary64 subtraction *)

(** The difference of two binary64 numbers is a zero only when the two
    compare equal: subtraction of distinct finite numbers never underflows
    to zero, because the aligned mantissas differ by at least one unit of
    the smaller exponent, which is at least the smallest exponent.  Proved
    from the specification of the primitive operations in [SpecFloat]. *)

Section Binary64.

Local Open Scope Z_scope.

Lemma digits2_lower (m : positive) : 2 ^ (Zpos (digits2_pos m) - 1) <= Zpos m.
Proof.
  assert (step : forall d : positive,
             2 ^ (Zpos (Pos.succ d) - 1) = 2 * 2 ^ (Zpos d - 1)).
  { intros d. rewrite Pos2Z.inj_succ.
    replace (Z.succ (Zpos d) - 1) with (Z.succ (Zpos d - 1)) by lia.
    apply Z.pow_succ_r. lia. }
  induction m as [m IH|m IH|]; simpl digits2_pos; [| |simpl; lia];
    rewrite step; lia.
Qed.

Lemma shr_1_m (mrs : shr_record) :
  0 <= shr_m mrs -> shr_m (shr_1 mrs) = shr_m mrs / 2.
Proof.
  destruct mrs as [m r s]. simpl. intros H.
  rewrite <- Z.div2_div.
  destruct m as [|[p|p|]|p]; simpl; try reflexivity; lia.
Qed.

Lemma pow2_xI (p : positive) : 2 ^ Zpos p~1 = 2 * (2 ^ Zpos p * 2 ^ Zpos p).
Proof.
  rewrite (Pos2Z.inj_xI p), Z.pow_add_r, Z.pow_mul_r by lia.
  change (2 ^ 2) with 4. rewrite Z.pow_1_r.
  replace 4 with (2 * 2) by reflexivity.
  rewrite Z.pow_mul_l. ring.
Qed.

Lemma pow2_xO (p : positive) : 2 ^ Zpos p~0 = 2 ^ Zpos p * 2 ^ Zpos p.
Proof.
  rewrite (Pos2Z.inj_xO p), Z.pow_mul_r by lia.
  change (2 ^ 2) with (2 * 2). now rewrite Z.pow_mul_l.
Qed.

Lemma iter_shr_m (p : positive) : forall mrs : shr_record,
  0 <= shr_m mrs ->
  shr_m (iter_pos shr_1 p mrs) = shr_m mrs / 2 ^ Zpos p.
Proof.
  assert (Hp : forall q : positive, 0 < 2 ^ Zpos q)
    by (intros q; apply Z.pow_pos_nonneg; lia).
  induction p as [p IH|p IH|]; intros mrs H; simpl iter_pos.
  - assert (H1 : 0 <= shr_m (shr_1 mrs))
      by (rewrite shr_1_m by lia; apply Z.div_pos; lia).
    assert (H2 : 0 <= shr_m (iter_pos shr_1 p (shr_1 mrs)))
      by (rewrite IH by lia; apply Z.div_pos; [lia|apply Hp]).
    rewrite IH, IH, shr_1_m by lia.
    pose proof (Hp p).
    rewrite !Z.div_div by lia. now rewrite pow2_xI.
  - assert (H2 : 0 <= shr_m (iter_pos shr_1 p mrs))
      by (rewrite IH by lia; apply Z.div_pos; [lia|apply Hp]).
    rewrite IH, IH by lia.
    pose proof (Hp p).
    rewrite !Z.div_div by lia. now rewrite pow2_xO.
  - now apply shr_1_m.
Qed.

Lemma shr_m_of_loc (m : Z) (l : location) : shr_m (shr_record_of_loc m l) = m.
Proof. now destruct l as [|[]]. Qed.

Lemma shr_fexp_pos (m : positive) (e : Z) (l : location) :
  emin <= e ->
  0 < shr_m (fst (shr_fexp prec emax (Zpos m) e l))
  /\ emin <= snd (shr_fexp prec emax (Zpos m) e l).
Proof.
  intros He. unfold shr_fexp, shr. simpl Zdigits2.
  destruct (fexp prec emax (Zpos (digits2_pos m) + e) - e) as [|p|p] eqn:En;
    simpl fst; simpl snd; rewrite ?shr_m_of_loc; try (split; [reflexivity|exact He]).
  unfold fexp, SpecFloat.emin, prec, emax in *.
  rewrite iter_shr_m by (rewrite shr_m_of_loc; lia). rewrite shr_m_of_loc.
  assert (Ep : Zpos p = Zpos (digits2_pos m) - 53) by lia.
  split; [|lia].
  apply Z.div_str_pos. split; [apply Z.pow_pos_nonneg; lia|].
  etransitivity; [|apply digits2_lower].
  apply Z.pow_le_mono_r; lia.
Qed.

Lemma round_nearest_even_pos (m : Z) (l : location) :
  0 < m -> 0 < round_nearest_even m l.
Proof.
  intros H. destruct l as [|[]]; simpl; try lia.
  destruct (Z.even m); lia.
Qed.

Lemma binary_round_aux_nonzero (s s' : bool) (m : positive) (e : Z) (l : location) :
  emin <= e -> binary_round_aux prec emax s (Zpos m) e l <> S754_zero s'.
Proof.
  intros He. unfold binary_round_aux.
  destruct (shr_fexp_pos m e l He) as [H1 H2].
  destruct (shr_fexp prec emax (Zpos m) e l) as [mrs' e'].
  simpl fst in H1; simpl snd in H2.
  pose proof (round_nearest_even_pos (shr_m mrs') (loc_of_shr_record mrs') H1) as H3.
  destruct (round_nearest_even (shr_m mrs') (loc_of_shr_record mrs')) as [|m'|m'];
    try lia.
  destruct (shr_fexp_pos m' e' loc_Exact H2) as [H4 _].
  destruct (shr_fexp prec emax (Zpos m') e' loc_Exact) as [mrs'' e''].
  simpl fst in H4.
  destruct (shr_m mrs'') as [|m''|m'']; try lia.
  destruct (e'' <=? emax - prec); discriminate.
Qed.

Lemma shl_align_snd (m : positive) (e e' : Z) :
  snd (shl_align m e e') = Z.min e e'.
Proof.
  unfold shl_align. destruct (e' - e) eqn:E; simpl; lia.
Qed.

Lemma binary_round_nonzero (s s' : bool) (m : positive) (e : Z) :
  emin <= e -> binary_round prec emax s m e <> S754_zero s'.
Proof.
  intros He. unfold binary_round.
  pose proof (shl_align_snd m e (fexp prec emax (Zpos (digits2_pos m) + e))) as H.
  destruct (shl_align m e (fexp prec emax (Zpos (digits2_pos m) + e))) as [mz ez].
  simpl snd in H. apply binary_round_aux_nonzero.
  unfold fexp, SpecFloat.emin, prec, emax in *. lia.
Qed.

Lemma binary_normalize_zero (m e : Z) (s : bool) :
  emin <= e -> binary_normalize prec emax m e false = S754_zero s -> m = 0.
Proof.
  intros He H. destruct m as [|m|m]; [reflexivity| |];
    simpl in H; now apply binary_round_nonzero in H.
Qed.

Lemma iter_xO_digits (m d : positive) :
  digits2_pos (Pos.iter xO m d) = (digits2_pos m + d)%positive.
Proof.
  induction d as [|d IH] using Pos.peano_ind.
  - simpl. now rewrite Pos.add_1_r.
  - rewrite Pos.iter_succ. simpl. rewrite IH. lia.
Qed.

Lemma canonical_exponent (m : positive) (e : Z) :
  bounded prec emax m e = true -> fexp prec emax (Zpos (digits2_pos m) + e) = e.
Proof.
  unfold bounded, canonical_mantissa. intros H.
  apply andb_prop in H. now apply Z.eqb_eq.
Qed.

Lemma aligned_equal (ma mb : positive) (ea eb : Z) :
  bounded prec emax ma ea = true ->
  bounded prec emax mb eb = true ->
  fst (shl_align mb eb (Z.min eb ea)) = fst (shl_align ma ea (Z.min eb ea)) ->
  ma = mb /\ ea = eb.
Proof.
  intros Ha Hb. apply canonical_exponent in Ha, Hb.
  unfold shl_align.
  destruct (Z.min eb ea - eb) as [|p|p] eqn:Eb;
    destruct (Z.min eb ea - ea) as [|q|q] eqn:Ea; simpl fst; intros E;
    try lia.
  - exfalso. subst mb. rewrite iter_xO_digits in Hb.
    assert (ea = eb + Zpos q) by lia. subst ea.
    rewrite Pos2Z.inj_add in Hb.
    replace (Zpos (digits2_pos ma) + Zpos q + eb)
      with (Zpos (digits2_pos ma) + (eb + Zpos q)) in Hb by lia.
    rewrite Ha in Hb. lia.
  - exfalso. subst ma. rewrite iter_xO_digits in Ha.
    assert (eb = ea + Zpos p) by lia. subst eb.
    rewrite Pos2Z.inj_add in Ha.
    replace (Zpos (digits2_pos mb) + Zpos p + ea)
      with (Zpos (digits2_pos mb) + (ea + Zpos p)) in Ha by lia.
    rewrite Hb in Ha. lia.
Qed.

Lemma SFsub_zero (a b : spec_float) (s : bool) :
  SpecFloat.valid_binary prec emax a = true ->
  SpecFloat.valid_binary prec emax b = true ->
  SFsub prec emax b a = S754_zero s ->
  forall c : spec_float, SFcompare c a = SFcompare c b.
Proof.
  intros Va Vb H c.
  destruct b as [sb|sb| |sb mb eb], a as [sa|sa| |sa ma ea];
    simpl in H; try discriminate; try reflexivity;
    try (now destruct sb, sa); try (now destruct sb); try (now destruct sa).
  simpl in Va, Vb.
  assert (He : emin <= Z.min eb ea).
  { pose proof (canonical_exponent _ _ Va).
    pose proof (canonical_exponent _ _ Vb).
    unfold fexp, SpecFloat.emin, prec, emax in *. lia. }
  apply binary_normalize_zero in H; [|exact He].
  unfold cond_Zopp in H.
  assert (Es : sb = sa) by (destruct sb, sa; try reflexivity; exfalso; lia).
  subst sb.
  assert (Em : fst (shl_align mb eb (Z.min eb ea))
               = fst (shl_align ma ea (Z.min eb ea)))
    by (destruct sa; lia).
  destruct (aligned_equal _ _ _ _ Va Vb Em) as [-> ->]. reflexivity.
Qed.

Lemma SFeqb_zero (x : spec_float) :
  SFeqb x (S754_zero false) = true -> exists s, x = S754_zero s.
Proof.
  destruct x as [s|s| |s m e]; unfold SFeqb; simpl; intros H;
    try discriminate; try (now destruct s); now exists s.
Qed.

Lemma float_sub_zero (yi yj lat : float) :
  PrimFloat.eqb (PrimFloat.sub yj yi) PrimFloat.zero = true ->
  PrimFloat.ltb lat yi = PrimFloat.ltb lat yj.
Proof.
  rewrite eqb_spec, sub_spec, !ltb_spec.
  change (Prim2SF PrimFloat.zero) with (S754_zero false).
  intros H. apply SFeqb_zero in H. destruct H as [s H].
  unfold SFltb.
  now rewrite (SFsub_zero _ _ s (Prim2SF_valid yi) (Prim2SF_valid yj) H
                 (Prim2SF lat)).
Qed.

Lemma float_zero_difference : zero_difference_law float.
Proof. intros yi yj lat H. now apply float_sub_zero. Qed.

End Binary64.

(** ** Safety of the division *)

(** When the guard is false the division is not evaluated, whatever the
    division is. *)
Lemma intersect_with_unguarded {num : Type} {N : Number num}
    (divide : num -> num -> outcome num) (lng lat xi yi xj yj : num) :
  gtb yi lat = gtb yj lat ->
  intersect_with divide lng lat xi yi xj yj = Val false.
Proof.
  intros G. unfold intersect_with. now rewrite G, Bool.eqb_reflx.
Qed.

Lemma intersect_with_checked_div {num : Type} {N : Number num} :
  zero_difference_law num ->
  forall lng lat xi yi xj yj : num,
    intersect_with checked_div lng lat xi yi xj yj
    = Val (crosses lng lat ((xj, yj), (xi, yi))).
Proof.
  intros law lng lat xi yi xj yj. unfold intersect_with, crosses, checked_div.
  destruct (negb (Bool.eqb (gtb yi lat) (gtb yj lat))) eqn:G; [|reflexivity].
  destruct (is_zero (sub yj yi)) eqn:Z; [|reflexivity].
  rewrite (law yi yj lat Z), Bool.eqb_reflx in G. discriminate.
Qed.

Lemma isPointInPolygon_checked_eq {num : Type} {N : Number num} :
  zero_difference_law num ->
  forall (point : Coordinate num) (ring : Ring num),
    isPointInPolygon_checked point ring = isPointInPolygon point ring.
Proof.
  intros law point ring. unfold isPointInPolygon_checked, isPointInPolygon.
  rewrite (isPointInPolygon_with_visited _ (intersect_with_checked_div law)).
  now rewrite (isPointInPolygon_with_visited _ intersect_with_js_div).
Qed.

(** C3.  In [isPointInPolygon] the division by [yj - yi] never has a zero
    divisor: it is evaluated only after the guard [(yi > lat) != (yj > lat)]
    has held, and then [yj - yi] is not a zero.  For every point and every
    ring, the function with every division checked never takes the
    division-by-zero branch and returns what [isPointInPolygon] returns,
    over binary64 numbers and over the rationals. *)
Theorem isPointInPolygon_division_safe :
  (forall (point : Coordinate float) (ring : Ring float),
     isPointInPolygon_checked point ring <> DivByZero
     /\ isPointInPolygon_checked point ring = isPointInPolygon point ring)
  /\ (forall (point : Coordinate Q) (ring : Ring Q),
        isPointInPolygon_checked point ring <> DivByZero
        /\ isPointInPolygon_checked point ring = isPointInPolygon point ring).
Proof.
  split; intros point ring.
  - rewrite (isPointInPolygon_checked_eq float_zero_difference).
    rewrite isPointInPolygon_parity. split; [discriminate|reflexivity].
  - rewrite (isPointInPolygon_checked_eq Q_zero_difference).
    rewrite isPointInPolygon_parity. split; [discriminate|reflexivity].
Qed.

(** ** Winding direction *)

(** C6, as the code has it.  Over binary64 numbers the result can change when
    the ring is reversed: for the triangle [(0,0), (1,3), (5,0)] and the point
    [(1/3, 1)] the test is false on the ring and true on the reversed ring. *)
Lemma reversal_changes_result_binary64 :
  (3 <= length triangle)%nat
  /\ isPointInPolygon near_edge_point triangle = Val false
  /\ isPointInPolygon near_edge_point (rev triangle) = Val true
  /\ isPointInPolygon near_edge_point (rev triangle)
     <> isPointInPolygon near_edge_point triangle.
Proof.
  split; [simpl; lia|].
  assert (H1 : isPointInPolygon near_edge_point triangle = Val false)
    by (vm_compute; reflexivity).
  assert (H2 : isPointInPolygon near_edge_point (rev triangle) = Val true)
    by (vm_compute; reflexivity).
  split; [exact H1|]. split; [exact H2|].
  rewrite H1, H2. discriminate.
Qed.

(** C6, amended.  Over the rationals, reversing the vertex list of a ring
    does not change the result of [isPointInPolygon], for every ring and
    every point.  Over binary64 numbers the same holds for the rings on whose
    edges the crossing test at the point gives the same answer in both
    directions. *)
Theorem isPointInPolygon_reverse :
  (forall (point : Coordinate Q) (ring : Ring Q),
     isPointInPolygon point (rev ring) = isPointInPolygon point ring)
  /\ (forall (point : Coordinate float) (ring : Ring float),
        Forall (direction_independent (fst point) (snd point))
          (cyclic_edges ring) ->
        isPointInPolygon point (rev ring) = isPointInPolygon point ring).
Proof.
  split.
  - intros point ring. apply reversal_if_direction_independent.
    apply Forall_forall. intros e _. apply Q_crosses_swap.
  - intros point ring. apply reversal_if_direction_independent.
Qed.

Lemma isPointInPolygon_reverse_witness :
  isPointInPolygon point_A (rev square_A) = isPointInPolygon point_A square_A.
Proof.
  apply (proj2 isPointInPolygon_reverse point_A square_A).
  repeat constructor.
Defined.

(** ** Zone lookup *)

Section FindZone.

Context {num : Type} {N : Number num}.

Lemma elem_head {A : Type} (x : A) (xs : list A) : elem (x :: xs) 0 = Val x.
Proof. reflexivity. Qed.

(** One step of the scan, for a zone that has a boundary. *)
Lemma findZone_cons (zone : Zone num) (rest : list (Zone num))
    (point : Coordinate num) :
  has_boundary zone ->
  findZone (zone :: rest) point
  = if contains point zone then Val (Some zone) else findZone rest point.
Proof.
  unfold has_boundary, contains. intros H. simpl findZone.
  destruct (coordinates zone) as [|boundary more]; [contradiction|].
  rewrite elem_head. simpl bind.
  destruct (isPointInPolygon_returns point boundary) as [inside E].
  rewrite E. now destruct inside.
Qed.

Lemma findZone_find (registry : list (Zone num)) (point : Coordinate num) :
  Forall has_boundary registry ->
  findZone registry point = Val (find (contains point) registry).
Proof.
  induction 1 as [|zone rest Hz _ IH]; [reflexivity|].
  rewrite (findZone_cons _ _ _ Hz). simpl find.
  now destruct (contains point zone).
Qed.

Lemma find_first (point : Coordinate num)
    (before after : list (Zone num)) (zone : Zone num) :
  Forall (fun z => contains point z = false) before ->
  contains point zone = true ->
  find (contains point) (before ++ zone :: after) = Some zone.
Proof.
  induction 1 as [|z before Hz _ IH]; intros Hc; simpl.
  - now rewrite Hc.
  - rewrite Hz. now apply IH.
Qed.

Lemma find_none (point : Coordinate num) (registry : list (Zone num)) :
  Forall (fun z => contains point z = false) registry ->
  find (contains point) registry = None.
Proof.
  induction 1 as [|z registry Hz _ IH]; simpl; [reflexivity|].
  now rewrite Hz.
Qed.

(** A zone that the scan returns contains the point. *)
Lemma findZone_Some_contains (registry : list (Zone num))
    (point : Coordinate num) (zone : Zone num) :
  findZone registry point = Val (Some zone) -> contains point zone = true.
Proof.
  induction registry as [|z rest IH]; simpl; [discriminate|].
  unfold contains at 1.
  destruct (coordinates z) as [|boundary more] eqn:Ez; [discriminate|].
  rewrite elem_head. simpl bind.
  destruct (isPointInPolygon_returns point boundary) as [inside E].
  rewrite E. simpl bind. destruct inside; [|exact IH].
  intros H. injection H as <-. unfold contains. now rewrite Ez, E.
Qed.

End FindZone.

(** C1.  For every point and every registry of zones that have a boundary,
    [findZone] returns the first zone, in registry order, whose outer boundary
    ring contains the point according to [isPointInPolygon], and none when no
    zone's boundary contains it.  In particular a zone that contains the point
    and is preceded only by zones that do not is the one returned, whatever
    zones follow it. *)
Theorem findZone_first_match {num : Type} {N : Number num}
    (point : Coordinate num) (registry : list (Zone num)) :
  Forall has_boundary registry ->
  findZone registry point = Val (find (contains point) registry)
  /\ (forall before zone after,
        registry = before ++ zone :: after ->
        Forall (fun z => contains point z = false) before ->
        contains point zone = true ->
        findZone registry point = Val (Some zone))
  /\ (Forall (fun z => contains point z = false) registry ->
      findZone registry point = Val None).
Proof.
  intros Hvalid. rewrite (findZone_find _ _ Hvalid).
  split; [reflexivity|]. split.
  - intros before zone after -> Hbefore Hzone.
    now rewrite (find_first _ _ _ _ Hbefore Hzone).
  - intros Hnone. now rewrite (find_none _ _ Hnone).
Qed.

Lemma findZone_first_match_witness :
  Forall has_boundary [zone_inner; zone_outer]
  /\ contains point_A zone_inner = true
  /\ contains point_A zone_outer = true
  /\ findZone [zone_inner; zone_outer] point_A = Val (Some zone_inner)
  /\ findZone [zone_outer; zone_inner] point_A = Val (Some zone_outer).
Proof.
  assert (H1 : Forall has_boundary [zone_inner; zone_outer])
    by (repeat constructor; discriminate).
  assert (H2 : Forall has_boundary [zone_outer; zone_inner])
    by (repeat constructor; discriminate).
  assert (Hi : contains point_A zone_inner = true) by (vm_compute; reflexivity).
  assert (Ho : contains point_A zone_outer = true) by (vm_compute; reflexivity).
  split; [exact H1|]. split; [exact Hi|]. split; [exact Ho|]. split.
  - apply (proj1 (proj2 (findZone_first_match point_A _ H1))
             [] zone_inner [zone_outer] eq_refl (Forall_nil _) Hi).
  - apply (proj1 (proj2 (findZone_first_match point_A _ H2))
             [] zone_outer [zone_inner] eq_refl (Forall_nil _) Ho).
Defined.

(** C7.  On a registry of zones that have a boundary, [findZone] never
    throws: for every point it returns a definite zone-or-none value.  On the
    registry with no zone it returns none for every point. *)
Theorem findZone_never_raises {num : Type} {N : Number num}
    (point : Coordinate num) (registry : list (Zone num)) :
  Forall has_boundary registry ->
  (exists result : option (Zone num), findZone registry point = Val result)
  /\ ~ raises (findZone registry point)
  /\ findZone [] point = Val None.
Proof.
  intros Hvalid. rewrite (findZone_find _ _ Hvalid).
  split; [now eexists|]. split; [intros H; exact H|reflexivity].
Qed.

Lemma findZone_never_raises_witness :
  Forall has_boundary [zone_inner; zone_outer]
  /\ ~ raises (findZone [zone_inner; zone_outer] point_B).
Proof.
  assert (H : Forall has_boundary [zone_inner; zone_outer])
    by (repeat constructor; discriminate).
  split; [exact H|].
  exact (proj1 (proj2 (findZone_never_raises point_B _ H))).
Defined.

(** The precondition matters: a zone with no ring makes the lookup throw. *)
Lemma findZone_zone_without_ring :
  findZone [zone_without_ring] point_A = TypeError.
Proof. reflexivity. Qed.

(** ** Registry construction *)

Lemma map_index_coordinates {num : Type}
    (colour : nat -> option string) (zones : list (Zone num)) (index : nat) :
  map coordinates
    (map_index (fun zone i => {| id := id zone; name := name zone;
                                 coordinates := coordinates zone;
                                 color := colour i |}) zones index)
  = map coordinates zones
  /\ map id
       (map_index (fun zone i => {| id := id zone; name := name zone;
                                    coordinates := coordinates zone;
                                    color := colour i |}) zones index)
     = map id zones
  /\ map name
       (map_index (fun zone i => {| id := id zone; name := name zone;
                                    coordinates := coordinates zone;
                                    color := colour i |}) zones index)
     = map name zones.
Proof.
  revert index; induction zones as [|zone zones IH]; intros index;
    [repeat split|].
  destruct (IH (S index)) as (Hc & Hi & Hn). simpl.
  now rewrite Hc, Hi, Hn.
Qed.

Lemma has_boundary_coordinates {num : Type} (zones zones' : list (Zone num)) :
  map coordinates zones' = map coordinates zones ->
  Forall has_boundary zones -> Forall has_boundary zones'.
Proof.
  revert zones'; induction zones as [|z zones IH]; intros [|z' zones'] E H;
    try discriminate; constructor; inversion H; subst; simpl in E;
    injection E as E1 E2.
  - unfold has_boundary in *. now rewrite E1.
  - now apply IH.
Qed.

Lemma nth_error_map_index {A B : Type} (f : A -> nat -> B) (xs : list A) :
  forall start k : nat,
    nth_error (map_index f xs start) k
    = option_map (fun x => f x (start + k)%nat) (nth_error xs k).
Proof.
  induction xs as [|x xs IH]; intros start k.
  - now destruct k.
  - destruct k as [|k]; simpl.
    + now rewrite Nat.add_0_r.
    + rewrite IH. now rewrite Nat.add_succ_r.
Qed.

Lemma length_map_index {A B : Type} (f : A -> nat -> B) (xs : list A) :
  forall start : nat, length (map_index f xs start) = length xs.
Proof.
  induction xs as [|x xs IH]; intros start; [reflexivity|].
  simpl. now rewrite IH.
Qed.

Lemma DISTRICT_COLORS_defined (k : nat) :
  exists c, nth_error DISTRICT_COLORS (k mod length DISTRICT_COLORS) = Some c.
Proof.
  destruct (nth_error DISTRICT_COLORS (k mod length DISTRICT_COLORS)) eqn:E;
    [now eexists|].
  apply nth_error_None in E.
  pose proof (Nat.mod_upper_bound k (length DISTRICT_COLORS)). simpl in *. lia.
Qed.

(** C8, as the code has it.  A zone whose boundary has 2 vertices is accepted
    by the construction of the registry: no error is raised, and the zone is
    in the registry with its boundary and a colour. *)
Lemma ZONES_accepts_two_vertices :
  malformed two_vertex_zone
  /\ ~ raises (ZONES [two_vertex_zone])
  /\ ZONES [two_vertex_zone]
     = Val [ {| id := "segment"; name := "segment";
                coordinates := [ [ (0, 0); (1, 3) ]%float ];
                color := Some "#FF6B6B"%string |} ].
Proof.
  split; [|split].
  - exists [ (0, 0); (1, 3) ]%float, []. split; [reflexivity|simpl; lia].
  - intros H. exact H.
  - reflexivity.
Qed.

(** C8, amended.  The construction of the registry validates nothing: from
    zones that each have a boundary ring, of any number of vertices, it
    returns a registry with the same identifiers, names and boundaries, and
    raises no error; the zone at position [k] of the registry has the colour
    at position [k mod 10] of the palette, which is never [undefined]; a
    lookup in that registry then returns a zone-or-none value for every
    point, without validating the zones either. *)
Theorem ZONES_no_validation {num : Type} {N : Number num}
    (FIRE_DISTRICT_ZONES : list (Zone num)) (point : Coordinate num) :
  Forall has_boundary FIRE_DISTRICT_ZONES ->
  exists registry : list (Zone num),
    ZONES FIRE_DISTRICT_ZONES = Val registry
    /\ map coordinates registry = map coordinates FIRE_DISTRICT_ZONES
    /\ map id registry = map id FIRE_DISTRICT_ZONES
    /\ map name registry = map name FIRE_DISTRICT_ZONES
    /\ (forall (k : nat) (zone : Zone num),
          nth_error registry k = Some zone ->
          color zone = nth_error DISTRICT_COLORS (k mod 10)
          /\ exists c : string, color zone = Some c)
    /\ exists result : option (Zone num), findZone registry point = Val result.
Proof.
  intros Hvalid. unfold ZONES. eexists. split; [reflexivity|].
  match goal with
  | |- map coordinates (map_index (fun zone i => _) _ _) = _ /\ _ =>
      destruct (map_index_coordinates
                  (fun i => nth_error DISTRICT_COLORS
                              (i mod length DISTRICT_COLORS))
                  FIRE_DISTRICT_ZONES 0) as (Hc & Hi & Hn)
  end.
  split; [exact Hc|]. split; [exact Hi|]. split; [exact Hn|]. split.
  - intros k zone Hk. rewrite nth_error_map_index in Hk.
    destruct (nth_error FIRE_DISTRICT_ZONES k) as [raw|]; [|discriminate].
    injection Hk as <-. cbn [color Nat.add].
    split; [reflexivity|apply DISTRICT_COLORS_defined].
  - eexists. apply findZone_find.
    exact (has_boundary_coordinates _ _ Hc Hvalid).
Qed.

Lemma ZONES_no_validation_witness :
  Forall has_boundary [two_vertex_zone]
  /\ exists registry : list (Zone float),
       ZONES [two_vertex_zone] = Val registry
       /\ map coordinates registry = map coordinates [two_vertex_zone]
       /\ map id registry = map id [two_vertex_zone]
       /\ map name registry = map name [two_vertex_zone]
       /\ (forall (k : nat) (zone : Zone float),
             nth_error registry k = Some zone ->
             color zone = nth_error DISTRICT_COLORS (k mod 10)
             /\ exists c : string, color zone = Some c)
       /\ exists result : option (Zone float),
            findZone registry point_B = Val result.
Proof.
  assert (H : Forall has_boundary [two_vertex_zone])
    by (repeat constructor; discriminate).
  split; [exact H|].
  exact (ZONES_no_validation [two_vertex_zone] point_B H).
Defined.

(** ** Label placement, continued *)

(** C9.  [calculatePolygonCenter] returns the arithmetic mean of the
    vertices: the sum of the longitudes divided by the number of vertices,
    and the sum of the latitudes divided by the number of vertices.  It is
    not the area-weighted centroid: for the square with corners [(0,0)] and
    [(2,2)] and one more vertex in the middle of its bottom edge, the result
    is [(1, 4/5)] while the area-weighted centroid is [(1, 1)]. *)
Theorem calculatePolygonCenter_mean :
  (forall (num : Type) (N : Number num) (ring : Ring num),
     calculatePolygonCenter ring
     = (div (sum (map fst ring)) (of_nat (length ring)),
        div (sum (map snd ring)) (of_nat (length ring))))
  /\ (snd (calculatePolygonCenter square_with_midpoint) == 4 # 5)%Q
  /\ (snd (area_centroid square_with_midpoint) == 1)%Q
  /\ ~ (snd (calculatePolygonCenter square_with_midpoint)
        == snd (area_centroid square_with_midpoint))%Q.
Proof.
  split; [intros num N ring; apply center_is_arithmetic_mean|].
  split; [reflexivity|]. split; [reflexivity|]. discriminate.
Qed.

(** ** Degenerate rings *)

(** C10.  Under exact arithmetic, for every point and every ring of fewer
    than 3 vertices, [isPointInPolygon] returns false, and hence [findZone]
    never returns a zone whose boundary is that ring. *)
Theorem isPointInPolygon_degenerate
    (point : Coordinate Q) (ring : Ring Q) :
  (length ring < 3)%nat ->
  isPointInPolygon point ring = Val false
  /\ forall (registry : list (Zone Q)) (zone : Zone Q) (rest : list (Ring Q)),
       coordinates zone = ring :: rest ->
       findZone registry point <> Val (Some zone).
Proof.
  intros Hlen.
  assert (E : isPointInPolygon point ring = Val false).
  { apply degenerate_if_direction_independent; [|exact Hlen].
    intros e. apply Q_crosses_swap. }
  split; [exact E|]. intros registry zone rest Hz H.
  apply findZone_Some_contains in H. unfold contains in H.
  rewrite Hz, E in H. discriminate.
Qed.

Lemma isPointInPolygon_degenerate_witness :
  (length segment_Q < 3)%nat
  /\ isPointInPolygon third_Q segment_Q = Val false.
Proof.
  assert (H : (length segment_Q < 3)%nat) by (simpl; lia).
  split; [exact H|].
  exact (proj1 (isPointInPolygon_degenerate third_Q segment_Q H)).
Defined.

(** The proviso of exact arithmetic matters for 2 vertices: over binary64
    numbers the two directions of the segment from [(0,0)] to [(1,3)] round
    differently at the point [(1/3, 1)], and the test returns true. *)
Lemma two_vertex_ring_binary64 :
  isPointInPolygon near_edge_point [ (0, 0); (1, 3) ]%float = Val true.
Proof. vm_compute. reflexivity. Qed.

(** Rings of 0 or 1 vertex give false in every arithmetic. *)
Lemma at_most_one_vertex_false {num : Type} {N : Number num}
    (point : Coordinate num) (ring : Ring num) :
  (length ring < 2)%nat -> isPointInPolygon point ring = Val false.
Proof.
  intros Hlen. rewrite isPointInPolygon_parity. f_equal.
  destruct ring as [|a [|b r]]; [reflexivity| |simpl in Hlen; lia].
  unfold_edges. now rewrite crosses_self.
Qed.

(** ** The scenarios of the specification, on binary64 numbers *)

Example scenario_A : isPointInPolygon point_A square_A = Val true.
Proof. vm_compute. reflexivity. Qed.

Example scenario_B : isPointInPolygon point_B square_A = Val false.
Proof. vm_compute. reflexivity. Qed.

(** A point on the edge shared by two adjacent squares belongs to the
    eastern one only. *)
Example scenario_C :
  isPointInPolygon point_shared_edge square_A = Val false
  /\ isPointInPolygon point_shared_edge square_east = Val true.
Proof. split; vm_compute; reflexivity. Qed.

Example scenario_D : findZone [] point_A = Val None.
Proof. reflexivity. Qed.

(** ** Points outside the extent of a ring *)

Section Extent.

Context {num : Type} {N : Number num}.

Lemma parity_all_false {A : Type} (f : A -> bool) (l : list A) :
  (forall a, In a l -> f a = false) -> parity (map f l) = false.
Proof.
  induction l as [|a l IH]; intros H; [reflexivity|].
  simpl map. rewrite parity_cons, (H a (or_introl eq_refl)), IH;
    [reflexivity|]. intros b Hb. apply H. now right.
Qed.

(** Both endpoints of a cyclic edge are vertices of the ring. *)
Lemma cyclic_edges_In (ring : Ring num) (e : Edge num) :
  In e (cyclic_edges ring) -> In (fst e) ring /\ In (snd e) ring.
Proof.
  destruct e as [a b]. unfold cyclic_edges. intros H. split.
  - exact (in_combine_l _ _ _ _ H).
  - apply in_combine_r in H. apply in_app_or in H. destruct H as [H|H].
    + destruct ring; [contradiction|]. now right.
    + destruct ring; [contradiction|]. simpl in H. destruct H as [<-|[]].
      now left.
Qed.

Lemma last_default {A : Type} (l : list A) :
  forall x d d' : A, last (x :: l) d = last (x :: l) d'.
Proof.
  induction l as [|y l IH]; intros x d d'; [reflexivity|].
  change (last (x :: y :: l) d) with (last (y :: l) d).
  change (last (x :: y :: l) d') with (last (y :: l) d'). apply IH.
Qed.

(** Along a path, the changes of a boolean attribute of the vertices add up
    to the change between its two ends. *)
Lemma path_changes {A : Type} (b : A -> bool) (l : list A) :
  forall a : A,
    parity (map (fun e => xorb (b (fst e)) (b (snd e))) (path (a :: l)))
    = xorb (b a) (b (last l a)).
Proof.
  induction l as [|c l IH]; intros a.
  - simpl. now destruct (b a).
  - change (path (a :: c :: l)) with ((a, c) :: path (c :: l)).
    rewrite map_cons, parity_cons, IH. cbn [fst snd].
    replace (last (c :: l) a) with (last l c)
      by (destruct l as [|d l']; [reflexivity|exact (last_default l' d c a)]).
    now destruct (b a), (b c), (b (last l c)).
Qed.

(** Around a cycle, they cancel: an attribute changes an even number of
    times. *)
Lemma cycle_changes (b : Coordinate num -> bool) (ring : Ring num) :
  parity (map (fun e => xorb (b (fst e)) (b (snd e))) (cyclic_edges ring))
  = false.
Proof.
  destruct ring as [|v r]; [reflexivity|].
  rewrite cyclic_edges_cons.
  rewrite (path_changes b (r ++ [v]) v), last_last.
  now destruct (b v).
Qed.

(** If [y > lat] has the same answer at every vertex, no edge is crossed. *)
Lemma same_side_false (point : Coordinate num) (ring : Ring num)
    (north : bool) :
  (forall v, In v ring -> gtb (snd v) (snd point) = north) ->
  isPointInPolygon point ring = Val false.
Proof.
  intros H. rewrite isPointInPolygon_parity. f_equal.
  apply parity_all_false. intros [[xj yj] [xi yi]] He.
  apply cyclic_edges_In in He. destruct He as [Hj Hi].
  apply H in Hj, Hi. simpl in Hj, Hi. unfold crosses.
  now rewrite Hj, Hi, Bool.eqb_reflx.
Qed.

End Extent.

(** X1.  A point that is south of every vertex of the ring, or south of
    none, is outside: if [y > lat] has the same answer for every vertex
    [(x, y)], [isPointInPolygon] returns false, in every arithmetic. *)
Theorem isPointInPolygon_outside_latitudes {num : Type} {N : Number num}
    (point : Coordinate num) (ring : Ring num) (north : bool) :
  (forall v, In v ring -> gtb (snd v) (snd point) = north) ->
  isPointInPolygon point ring = Val false.
Proof. intros H. now apply same_side_false with (north := north). Qed.

Lemma isPointInPolygon_outside_latitudes_witness :
  isPointInPolygon ((-122.19)%float, 48%float) square_A = Val false.
Proof.
  apply (isPointInPolygon_outside_latitudes _ square_A false).
  intros v Hv. simpl in Hv.
  destruct Hv as [<-|[<-|[<-|[<-|[]]]]]; reflexivity.
Defined.

(** ** The extent of a ring, in exact arithmetic *)

Lemma Qltb_true (a b : Q) : Qltb a b = true <-> a < b.
Proof.
  unfold Qltb. rewrite negb_true_iff, <- not_true_iff_false, Qle_bool_iff.
  split; [apply Qnot_le_lt|apply Qlt_not_le].
Qed.

Lemma Qltb_false (a b : Q) : Qltb a b = false <-> b <= a.
Proof.
  unfold Qltb. now rewrite negb_false_iff, Qle_bool_iff.
Qed.

(** Where an edge whose guard holds meets the latitude of the point: between
    the longitudes of its two endpoints. *)
Lemma Q_intersection_between (lat xi yi xj yj lo hi : Q) :
  negb (Bool.eqb (Qltb lat yi) (Qltb lat yj)) = true ->
  (lo <= xi -> lo <= xj ->
   lo <= (xj - xi) * (lat - yi) / (yj - yi) + xi)
  /\ (lo < xi -> lo < xj ->
      lo < (xj - xi) * (lat - yi) / (yj - yi) + xi)
  /\ (xi <= hi -> xj <= hi ->
      (xj - xi) * (lat - yi) / (yj - yi) + xi <= hi).
Proof.
  intros G. pose proof (Q_guard_distinct _ _ _ G) as Hd.
  set (q := (xj - xi) * (lat - yi) / (yj - yi)).
  assert (Eq : q * (yj - yi) == (xj - xi) * (lat - yi))
    by (unfold q; field; exact Hd).
  clearbody q.
  destruct (Qltb lat yi) eqn:Ei, (Qltb lat yj) eqn:Ej; try discriminate.
  - apply Qltb_true in Ei. apply Qltb_false in Ej.
    repeat split; intros; nra.
  - apply Qltb_false in Ei. apply Qltb_true in Ej.
    repeat split; intros; nra.
Qed.

Lemma Q_crosses_east (lng lat : Q) (e : Edge Q) :
  fst (fst e) <= lng -> fst (snd e) <= lng -> crosses lng lat e = false.
Proof.
  destruct e as [[xj yj] [xi yi]]. cbn [fst snd]. intros Hj Hi.
  unfold crosses. cbn [gtb ltb add sub mul div Q_Number].
  destruct (negb (Bool.eqb (Qltb lat yi) (Qltb lat yj))) eqn:G;
    [|reflexivity].
  cbn [andb]. apply Qltb_false.
  now apply (Q_intersection_between lat xi yi xj yj lng lng G).
Qed.

Lemma Q_crosses_west (lng lat : Q) (e : Edge Q) :
  lng < fst (fst e) -> lng < fst (snd e) ->
  crosses lng lat e
  = xorb (Qltb lat (snd (fst e))) (Qltb lat (snd (snd e))).
Proof.
  destruct e as [[xj yj] [xi yi]]. cbn [fst snd]. intros Hj Hi.
  unfold crosses. cbn [gtb ltb add sub mul div Q_Number].
  destruct (negb (Bool.eqb (Qltb lat yi) (Qltb lat yj))) eqn:G.
  - cbn [andb].
    assert (H : Qltb lng ((xj - xi) * (lat - yi) / (yj - yi) + xi) = true).
    { apply Qltb_true.
      now apply (Q_intersection_between lat xi yi xj yj lng lng G). }
    rewrite H. now destruct (Qltb lat yi), (Qltb lat yj).
  - now destruct (Qltb lat yi), (Qltb lat yj).
Qed.

(** X2.  In exact arithmetic a point outside the bounding box of the ring is
    outside the polygon: [isPointInPolygon] returns false when the point is
    strictly west of every vertex, or not west of any, or strictly south of
    every vertex, or not south of any. *)
Theorem isPointInPolygon_outside_box (lng lat : Q) (ring : Ring Q) :
  (forall v, In v ring -> lng < fst v)
  \/ (forall v, In v ring -> fst v <= lng)
  \/ (forall v, In v ring -> lat < snd v)
  \/ (forall v, In v ring -> snd v <= lat) ->
  isPointInPolygon (lng, lat) ring = Val false.
Proof.
  intros [W|[E|[S|Nn]]].
  - rewrite isPointInPolygon_parity. f_equal. cbn [fst snd].
    rewrite <- (cycle_changes (fun v => Qltb lat (snd v)) ring).
    f_equal. apply map_ext_in. intros e He.
    apply cyclic_edges_In in He. destruct He as [Hj Hi].
    apply Q_crosses_west; now apply W.
  - rewrite isPointInPolygon_parity. f_equal. cbn [fst snd].
    apply parity_all_false. intros e He.
    apply cyclic_edges_In in He. destruct He as [Hj Hi].
    apply Q_crosses_east; now apply E.
  - apply same_side_false with (north := true). intros v Hv.
    apply Qltb_true. now apply S.
  - apply same_side_false with (north := false). intros v Hv.
    apply Qltb_false. now apply Nn.
Qed.

Lemma isPointInPolygon_outside_box_witness :
  isPointInPolygon (2, 1)%Q (rectangle 0 0 2 2)%Q = Val false.
Proof.
  apply (isPointInPolygon_outside_box 2 1 (rectangle 0 0 2 2)%Q).
  right. left. intros v Hv. simpl in Hv.
  destruct Hv as [<-|[<-|[<-|[<-|[]]]]]; simpl; discriminate.
Defined.

(** Listing the first corner of a rectangle again at the end adds an edge
    from that corner to itself, which is never crossed. *)
Lemma rectangle_closed {num : Type} {N : Number num}
    (x0 y0 x1 y1 : num) (point : Coordinate num) :
  isPointInPolygon point (rectangle x0 y0 x1 y1 ++ [(x0, y1)])
  = isPointInPolygon point (rectangle x0 y0 x1 y1).
Proof.
  rewrite !isPointInPolygon_parity. f_equal.
  unfold rectangle. unfold_edges. rewrite crosses_self.
  now rewrite !xorb_false_r.
Qed.

(** X3.  In exact arithmetic the test on an axis-aligned rectangle is the box
    that contains its west and south edges and not its east and north edges:
    for [x0 < x1] and [y0 < y1], the point [(lng, lat)] is inside exactly
    when [x0 <= lng < x1] and [y0 <= lat < y1], whether the ring lists its
    four corners or lists the first one again at the end. *)
Theorem isPointInPolygon_rectangle (x0 y0 x1 y1 lng lat : Q) :
  x0 < x1 -> y0 < y1 ->
  isPointInPolygon (lng, lat) (rectangle x0 y0 x1 y1)
  = Val (Qle_bool x0 lng && Qltb lng x1 && Qle_bool y0 lat && Qltb lat y1)
  /\ isPointInPolygon (lng, lat) (rectangle x0 y0 x1 y1 ++ [(x0, y1)])
     = Val (Qle_bool x0 lng && Qltb lng x1 && Qle_bool y0 lat && Qltb lat y1).
Proof.
  intros Hx Hy. rewrite rectangle_closed.
  assert (E : isPointInPolygon (lng, lat) (rectangle x0 y0 x1 y1)
              = Val (Qle_bool x0 lng && Qltb lng x1
                     && Qle_bool y0 lat && Qltb lat y1));
    [|now split].
  rewrite isPointInPolygon_parity. f_equal.
  unfold rectangle. unfold_edges. cbn [fst snd].
  unfold crosses. cbn [gtb ltb add sub mul div Q_Number].
  rewrite !Bool.eqb_reflx. cbn [negb andb xorb].
  assert (E1 : (x1 - x1) * (lat - y0) / (y1 - y0) + x1 == x1)
    by (field; lra).
  assert (E0 : (x0 - x0) * (lat - y1) / (y0 - y1) + x0 == x0)
    by (field; lra).
  rewrite (Qltb_comp lng lng _ x1 (Qeq_refl lng) E1).
  rewrite (Qltb_comp lng lng _ x0 (Qeq_refl lng) E0).
  destruct (Qltb lat y0) eqn:A0, (Qltb lat y1) eqn:A1,
    (Qltb lng x0) eqn:B0, (Qltb lng x1) eqn:B1,
    (Qle_bool x0 lng) eqn:C0, (Qle_bool y0 lat) eqn:D0;
    try reflexivity; exfalso;
    rewrite ?Qltb_true, ?Qltb_false, <- ?not_true_iff_false,
      ?Qle_bool_iff in *; lra.
Qed.

Lemma isPointInPolygon_rectangle_witness :
  isPointInPolygon (0, 0)%Q (rectangle 0 0 2 2)%Q = Val true.
Proof.
  apply (proj1 (isPointInPolygon_rectangle 0 0 2 2 0 0 eq_refl eq_refl)).
Defined.

(** ** Rectangles over binary64 numbers *)

Section Binary64Rectangle.

Local Open Scope Z_scope.

Lemma is_finite_SF (x : float) :
  PrimFloat.is_finite x = true -> SFfinite (Prim2SF x).
Proof.
  unfold PrimFloat.is_finite, PrimFloat.is_nan, PrimFloat.is_infinity.
  rewrite !eqb_spec, abs_spec.
  change (Prim2SF infinity) with (S754_infinity false).
  destruct (Prim2SF x) as [s|s| |s m e]; simpl; intros H;
    try exact I; try discriminate.
  now destruct s.
Qed.

Lemma SFsub_self (x : spec_float) :
  SFfinite x -> SFsub prec emax x x = S754_zero false.
Proof.
  destruct x as [s|s| |s m e]; simpl; intros H; try contradiction.
  - now destruct s.
  - now rewrite Z.sub_diag.
Qed.

Lemma SFmul_zero (a b : spec_float) :
  SFzero a -> SFfinite b -> SFzero (SFmul prec emax a b).
Proof.
  destruct a as [s|s| |s m e]; try contradiction.
  destruct b as [t|t| |t n f]; simpl; intros _ H; try contradiction; exact I.
Qed.

Lemma SFdiv_zero (a c : spec_float) :
  SFzero a -> SFdivisor c -> SFzero (SFdiv prec emax a c).
Proof.
  destruct a as [s|s| |s m e]; try contradiction.
  destruct c as [t|t| |t n f]; simpl; intros _ H; try contradiction; exact I.
Qed.

Lemma SFadd_zero (a x c : spec_float) :
  SFzero a -> SFfinite x ->
  SFcompare c (SFadd prec emax a x) = SFcompare c x.
Proof.
  destruct a as [s|s| |s m e]; try contradiction.
  destruct x as [t|t| |t n f]; simpl; intros _ H; try contradiction;
    [|reflexivity].
  destruct s, t, c; reflexivity.
Qed.

(** Rounding a positive mantissa at an exponent that is not below the
    smallest one gives a finite non-zero number or an infinity. *)
Lemma binary_round_aux_divisor (s : bool) (m : positive) (e : Z)
    (l : location) :
  emin <= e -> SFdivisor (binary_round_aux prec emax s (Zpos m) e l).
Proof.
  intros He. unfold binary_round_aux.
  destruct (shr_fexp_pos m e l He) as [H1 H2].
  destruct (shr_fexp prec emax (Zpos m) e l) as [mrs' e'].
  simpl fst in H1; simpl snd in H2.
  pose proof (round_nearest_even_pos (shr_m mrs')
                (loc_of_shr_record mrs') H1) as H3.
  destruct (round_nearest_even (shr_m mrs') (loc_of_shr_record mrs'))
    as [|m'|m']; try lia.
  destruct (shr_fexp_pos m' e' loc_Exact H2) as [H4 _].
  destruct (shr_fexp prec emax (Zpos m') e' loc_Exact) as [mrs'' e''].
  simpl fst in H4.
  destruct (shr_m mrs'') as [|m''|m'']; try lia.
  now destruct (e'' <=? emax - prec).
Qed.

Lemma binary_normalize_not_nan (m e : Z) :
  emin <= e -> binary_normalize prec emax m e false <> S754_nan.
Proof.
  intros He H. destruct m as [|m|m]; simpl in H; [discriminate| |];
    unfold binary_round in H;
    pose proof (shl_align_snd m e
                  (fexp prec emax (Zpos (digits2_pos m) + e))) as Hs;
    destruct (shl_align m e (fexp prec emax (Zpos (digits2_pos m) + e)))
      as [mz ez]; simpl snd in Hs;
    (assert (Hz : emin <= ez)
       by (unfold fexp, SpecFloat.emin, prec, emax in *; lia));
    match type of H with
    | binary_round_aux _ _ ?s _ _ _ = _ =>
        pose proof (binary_round_aux_divisor s mz ez loc_Exact Hz) as Hd
    end;
    rewrite H in Hd; exact Hd.
Qed.

(** The difference of two finite numbers is not a NaN. *)
Lemma SFsub_not_nan (a b : spec_float) :
  SpecFloat.valid_binary prec emax a = true ->
  SpecFloat.valid_binary prec emax b = true ->
  SFfinite a -> SFfinite b -> SFsub prec emax b a <> S754_nan.
Proof.
  intros Va Vb Fa Fb.
  destruct b as [sb|sb| |sb mb eb], a as [sa|sa| |sa ma ea];
    try contradiction; simpl; try discriminate;
    try (now destruct sb, sa).
  simpl in Va, Vb. apply binary_normalize_not_nan.
  pose proof (canonical_exponent _ _ Va).
  pose proof (canonical_exponent _ _ Vb).
  unfold fexp, SpecFloat.emin, prec, emax in *. lia.
Qed.

Lemma float_sub_divisor (yi yj lat : float) :
  PrimFloat.is_finite yi = true -> PrimFloat.is_finite yj = true ->
  negb (Bool.eqb (PrimFloat.ltb lat yi) (PrimFloat.ltb lat yj)) = true ->
  SFdivisor (Prim2SF (PrimFloat.sub yj yi)).
Proof.
  intros Fi Fj G.
  assert (Hz : PrimFloat.eqb (PrimFloat.sub yj yi) PrimFloat.zero = false).
  { destruct (PrimFloat.eqb (PrimFloat.sub yj yi) PrimFloat.zero) eqn:E;
      [|reflexivity].
    apply (float_sub_zero yi yj lat) in E.
    rewrite E, Bool.eqb_reflx in G. discriminate. }
  pose proof (SFsub_not_nan _ _ (Prim2SF_valid yi) (Prim2SF_valid yj)
                (is_finite_SF _ Fi) (is_finite_SF _ Fj)) as Hn.
  rewrite eqb_spec in Hz. rewrite <- sub_spec in Hn.
  change (Prim2SF PrimFloat.zero) with (S754_zero false) in Hz.
  destruct (Prim2SF (PrimFloat.sub yj yi)) as [s|s| |s m e];
    try exact I; [discriminate|now elim Hn].
Qed.

(** On a vertical edge at longitude [x] whose guard holds, the longitude
    computed for the intersection compares like [x] itself. *)
Lemma float_vertical_edge (x lat yi yj lng : float) :
  PrimFloat.is_finite x = true ->
  PrimFloat.is_finite yi = true -> PrimFloat.is_finite yj = true ->
  PrimFloat.is_finite (PrimFloat.sub lat yi) = true ->
  negb (Bool.eqb (PrimFloat.ltb lat yi) (PrimFloat.ltb lat yj)) = true ->
  PrimFloat.ltb lng
    (PrimFloat.add
       (PrimFloat.div
          (PrimFloat.mul (PrimFloat.sub x x) (PrimFloat.sub lat yi))
          (PrimFloat.sub yj yi)) x)
  = PrimFloat.ltb lng x.
Proof.
  intros Fx Fi Fj Fd G.
  assert (Z1 : Prim2SF (PrimFloat.sub x x) = S754_zero false)
    by (rewrite sub_spec; apply SFsub_self, is_finite_SF, Fx).
  assert (Z2 : SFzero (Prim2SF (PrimFloat.mul (PrimFloat.sub x x)
                                  (PrimFloat.sub lat yi)))).
  { rewrite mul_spec, Z1. apply SFmul_zero; [exact I|].
    apply is_finite_SF, Fd. }
  assert (Z3 : SFzero (Prim2SF (PrimFloat.div
                                  (PrimFloat.mul (PrimFloat.sub x x)
                                     (PrimFloat.sub lat yi))
                                  (PrimFloat.sub yj yi)))).
  { rewrite div_spec. apply SFdiv_zero; [exact Z2|].
    now apply float_sub_divisor with (lat := lat). }
  rewrite !ltb_spec, add_spec. unfold SFltb.
  now rewrite (SFadd_zero _ _ _ Z3 (is_finite_SF _ Fx)).
Qed.

End Binary64Rectangle.

(** The crossings of a rectangle with finite corners, over binary64. *)
Lemma rectangle_parity_binary64 (x0 y0 x1 y1 lng lat : float) :
  PrimFloat.is_finite x0 = true -> PrimFloat.is_finite x1 = true ->
  PrimFloat.is_finite y0 = true -> PrimFloat.is_finite y1 = true ->
  PrimFloat.is_finite (PrimFloat.sub lat y0) = true ->
  PrimFloat.is_finite (PrimFloat.sub lat y1) = true ->
  parity (map (crosses lng lat) (cyclic_edges (rectangle x0 y0 x1 y1)))
  = xorb (PrimFloat.ltb lat y0) (PrimFloat.ltb lat y1)
    && xorb (PrimFloat.ltb lng x0) (PrimFloat.ltb lng x1).
Proof.
  intros Fx0 Fx1 Fy0 Fy1 Fd0 Fd1.
  unfold rectangle. unfold_edges. cbn [fst snd].
  unfold crosses. cbn [gtb ltb add sub mul div float_Number].
  rewrite !Bool.eqb_reflx. cbn [negb andb xorb].
  destruct (negb (Bool.eqb (PrimFloat.ltb lat y0) (PrimFloat.ltb lat y1)))
    eqn:G.
  - rewrite (float_vertical_edge x1 lat y0 y1 lng Fx1 Fy0 Fy1 Fd0 G).
    assert (G' : negb (Bool.eqb (PrimFloat.ltb lat y1) (PrimFloat.ltb lat y0))
                 = true)
      by (now destruct (PrimFloat.ltb lat y0), (PrimFloat.ltb lat y1)).
    rewrite G'.
    rewrite (float_vertical_edge x0 lat y1 y0 lng Fx0 Fy1 Fy0 Fd1 G').
    now destruct (PrimFloat.ltb lat y0), (PrimFloat.ltb lat y1),
      (PrimFloat.ltb lng x0), (PrimFloat.ltb lng x1).
  - assert (G' : negb (Bool.eqb (PrimFloat.ltb lat y1) (PrimFloat.ltb lat y0))
                 = false)
      by (now destruct (PrimFloat.ltb lat y0), (PrimFloat.ltb lat y1)).
    rewrite G'.
    now destruct (PrimFloat.ltb lat y0), (PrimFloat.ltb lat y1).
Qed.

(** X4.  On the binary64 numbers the code runs on, the test on an
    axis-aligned rectangle with finite corners is exact: for a point whose
    latitude differences [lat - y0] and [lat - y1] are finite, the result is
    true exactly when one of [y0], [y1] and not the other is greater than
    [lat], and one of [x0], [x1] and not the other is greater than [lng].
    For [x0 < x1] and [y0 < y1] this is the box [x0 <= lng < x1],
    [y0 <= lat < y1]: the west and south edges belong to the rectangle, the
    east and north edges do not.  The same holds when the ring lists the
    first corner again at the end. *)
Theorem isPointInPolygon_rectangle_binary64 (x0 y0 x1 y1 lng lat : float) :
  PrimFloat.is_finite x0 = true -> PrimFloat.is_finite x1 = true ->
  PrimFloat.is_finite y0 = true -> PrimFloat.is_finite y1 = true ->
  PrimFloat.is_finite (PrimFloat.sub lat y0) = true ->
  PrimFloat.is_finite (PrimFloat.sub lat y1) = true ->
  isPointInPolygon (lng, lat) (rectangle x0 y0 x1 y1)
  = Val (xorb (PrimFloat.ltb lat y0) (PrimFloat.ltb lat y1)
         && xorb (PrimFloat.ltb lng x0) (PrimFloat.ltb lng x1))
  /\ isPointInPolygon (lng, lat) (rectangle x0 y0 x1 y1 ++ [(x0, y1)])
     = Val (xorb (PrimFloat.ltb lat y0) (PrimFloat.ltb lat y1)
            && xorb (PrimFloat.ltb lng x0) (PrimFloat.ltb lng x1)).
Proof.
  intros Fx0 Fx1 Fy0 Fy1 Fd0 Fd1. rewrite rectangle_closed.
  rewrite isPointInPolygon_parity. cbn [fst snd].
  rewrite rectangle_parity_binary64 by assumption. now split.
Qed.

Lemma isPointInPolygon_rectangle_binary64_witness :
  isPointInPolygon point_shared_edge square_east = Val true.
Proof.
  apply (proj1 (isPointInPolygon_rectangle_binary64
                  (-122.1815)%float 47.5901%float (-122.1615)%float
                  47.6101%float (-122.1815)%float 47.60%float
                  eq_refl eq_refl eq_refl eq_refl eq_refl eq_refl)).
Defined.

(** ** The order of binary64 numbers *)





(** ** The scan of [findZone] on any registry *)

Section Scan.

Context {num : Type} {N : Number num}.

Lemma findZone_ringless (zone : Zone num) (rest : list (Zone num))
    (point : Coordinate num) :
  coordinates zone = [] -> findZone (zone :: rest) point = TypeError.
Proof. intros H. simpl. now rewrite H. Qed.

Lemma findZone_skip (before rest : list (Zone num)) (point : Coordinate num) :
  Forall (skipped point) before ->
  findZone (before ++ rest) point = findZone rest point.
Proof.
  induction 1 as [|z before [Hb Hc] _ IH]; [reflexivity|].
  simpl app. rewrite (findZone_cons _ _ _ Hb), Hc. exact IH.
Qed.

Lemma findZone_hit (zone : Zone num) (rest : list (Zone num))
    (point : Coordinate num) :
  contains point zone = true ->
  findZone (zone :: rest) point = Val (Some zone).
Proof.
  intros Hc. rewrite findZone_cons, Hc; [reflexivity|].
  unfold has_boundary, contains in *. intros E. rewrite E in Hc.
  discriminate.
Qed.

(** The three ways a scan can end. *)
Lemma findZone_cases (registry : list (Zone num)) (point : Coordinate num) :
  (Forall (skipped point) registry /\ findZone registry point = Val None)
  \/ (exists zone, first_containing point registry zone
                   /\ findZone registry point = Val (Some zone))
  \/ (stops_at_ringless point registry
      /\ findZone registry point = TypeError).
Proof.
  induction registry as [|z rest IH]; [left; split; [constructor|reflexivity]|].
  destruct (coordinates z) as [|boundary more] eqn:Ez.
  - right. right. split; [|now apply findZone_ringless].
    exists [], z, rest. repeat split; [exact Ez|constructor].
  - assert (Hb : has_boundary z) by (unfold has_boundary; now rewrite Ez).
    destruct (contains point z) eqn:Hc.
    + right. left. exists z. split; [|now apply findZone_hit].
      exists [], rest. repeat split; [exact Hc|constructor].
    + assert (Hs : skipped point z) by (split; assumption).
      rewrite (findZone_cons _ _ _ Hb), Hc.
      destruct IH as [[Hall E]|[[zone [(before & after & -> & Hz & Hbefore) E]]
                               |[(before & zone & after & -> & Hz & Hbefore) E]]].
      * left. split; [now constructor|exact E].
      * right. left. exists zone. split; [|exact E].
        exists (z :: before), after. repeat split; [exact Hz|now constructor].
      * right. right. split; [|exact E].
        exists (z :: before), zone, after.
        repeat split; [exact Hz|now constructor].
Qed.

End Scan.

(** X5.  On any registry, valid or not, [findZone] returns a zone exactly
    when that zone contains the point and every zone before it has a
    boundary that does not contain the point; it returns none exactly when
    every zone has a boundary that does not contain the point.  Zones after
    the returned one are never inspected. *)
Theorem findZone_result_iff {num : Type} {N : Number num}
    (registry : list (Zone num)) (point : Coordinate num) :
  (forall zone,
     findZone registry point = Val (Some zone)
     -> first_containing point registry zone)
  /\ (forall zone,
        first_containing point registry zone
        -> findZone registry point = Val (Some zone))
  /\ (findZone registry point = Val None
      <-> Forall (skipped point) registry).
Proof.
  split; [|split; [|split]].
  - intros zone H.
    destruct (findZone_cases registry point)
      as [[_ E]|[[z [Hz E]]|[_ E]]]; rewrite E in H; try discriminate.
    now injection H as <-.
  - intros zone (before & after & -> & Hz & Hbefore).
    rewrite (findZone_skip _ _ _ Hbefore). now apply findZone_hit.
  - intros H.
    destruct (findZone_cases registry point)
      as [[Hall _]|[[z [_ E]]|[_ E]]]; [exact Hall| |];
      rewrite E in H; discriminate.
  - intros Hall. rewrite <- (app_nil_r registry).
    now rewrite (findZone_skip _ _ _ Hall).
Qed.

Lemma findZone_result_iff_witness :
  findZone [zone_inner; zone_without_ring] point_A = Val (Some zone_inner).
Proof.
  apply (proj1 (proj2 (findZone_result_iff
                         [zone_inner; zone_without_ring] point_A))).
  exists [], [zone_without_ring]. split; [reflexivity|].
  split; [vm_compute; reflexivity|constructor].
Defined.

(** X6.  [findZone] throws exactly when the scan reaches a zone with no
    ring, that is when some zone has an empty [coordinates] array and every
    zone before it has a boundary that does not contain the point; what it
    throws is the [TypeError] of reading [polygon.length].  A zone with no
    ring placed after a zone that contains the point does no harm. *)
Theorem findZone_throws_iff {num : Type} {N : Number num}
    (registry : list (Zone num)) (point : Coordinate num) :
  (raises (findZone registry point) <-> stops_at_ringless point registry)
  /\ (raises (findZone registry point)
      <-> findZone registry point = TypeError).
Proof.
  destruct (findZone_cases registry point)
    as [[Hall E]|[[z [(b & a & -> & Hz & Hb) E]]|[Hs E]]]; rewrite E.
  - split; split; try contradiction; try discriminate.
    intros (before & zone & after & -> & Hz & Hbefore).
    rewrite (findZone_skip _ _ _ Hbefore), (findZone_ringless _ _ _ Hz) in E.
    discriminate.
  - split; split; try contradiction; try discriminate.
    intros (before & zone & after & Eq & Hzr & Hbefore).
    rewrite Eq, (findZone_skip _ _ _ Hbefore),
      (findZone_ringless _ _ _ Hzr) in E.
    discriminate.
  - split; split; intros _; try exact Hs; try exact I; reflexivity.
Qed.

(** ** Registries of zones that do not overlap *)

Lemma find_Permutation {A : Type} (f : A -> bool) (l l' : list A) :
  Permutation l l' ->
  (forall a b, In a l -> In b l -> f a = true -> f b = true -> a = b) ->
  find f l' = find f l.
Proof.
  intros P U.
  destruct (find f l) as [a|] eqn:E.
  - apply find_some in E. destruct E as [Ha Hfa].
    destruct (find f l') as [b|] eqn:E'.
    + apply find_some in E'. destruct E' as [Hb Hfb].
      apply (Permutation_in _ (Permutation_sym P)) in Hb.
      f_equal. now apply U.
    + apply (Permutation_in _ P) in Ha.
      now rewrite (List.find_none _ _ E' _ Ha) in Hfa.
  - destruct (find f l') as [b|] eqn:E'; [|reflexivity].
    apply find_some in E'. destruct E' as [Hb Hfb].
    apply (Permutation_in _ (Permutation_sym P)) in Hb.
    now rewrite (List.find_none _ _ E _ Hb) in Hfb.
Qed.

(** X7.  When no two zones of a valid registry contain the point, the order
    of the registry does not matter: [findZone] returns the same result on
    every rearrangement of the registry. *)
Theorem findZone_order_independent {num : Type} {N : Number num}
    (registry registry' : list (Zone num)) (point : Coordinate num) :
  Forall has_boundary registry ->
  Permutation registry registry' ->
  (forall z1 z2, In z1 registry -> In z2 registry ->
     contains point z1 = true -> contains point z2 = true -> z1 = z2) ->
  findZone registry' point = findZone registry point.
Proof.
  intros Hvalid P U.
  rewrite (findZone_find _ _ Hvalid).
  rewrite (findZone_find registry' point);
    [|exact (Permutation_Forall P Hvalid)].
  f_equal. now apply find_Permutation.
Qed.

Lemma findZone_order_independent_witness :
  findZone [zone_east; zone_inner] point_A
  = findZone [zone_inner; zone_east] point_A.
Proof.
  apply (findZone_order_independent [zone_inner; zone_east]
           [zone_east; zone_inner] point_A).
  - repeat constructor; discriminate.
  - apply perm_swap.
  - intros z1 z2 H1 H2 C1 C2. simpl in H1, H2.
    destruct H1 as [<-|[<-|[]]], H2 as [<-|[<-|[]]];
      try reflexivity; vm_compute in C1, C2; discriminate.
Defined.



(** ** Colours of the registry *)

Lemma DISTRICT_COLORS_NoDup : NoDup DISTRICT_COLORS.
Proof.
  unfold DISTRICT_COLORS.
  repeat (constructor; [simpl; intuition discriminate|]). constructor.
Qed.

(** X9.  Every zone of the registry that [ZONES] builds has a colour, never
    [undefined]: the zone at position [k] keeps its id, name and boundary and
    gets the colour at position [k mod 10] of the palette, whatever colour it
    had; the registry has as many zones as the data. *)
Theorem ZONES_color_by_index {num : Type} {N : Number num}
    (FIRE_DISTRICT_ZONES : list (Zone num)) (k : nat) (zone : Zone num) :
  nth_error FIRE_DISTRICT_ZONES k = Some zone ->
  exists (registry : list (Zone num)) (c : string),
    ZONES FIRE_DISTRICT_ZONES = Val registry
    /\ length registry = length FIRE_DISTRICT_ZONES
    /\ nth_error DISTRICT_COLORS (k mod 10) = Some c
    /\ nth_error registry k
       = Some {| id := id zone; name := name zone;
                 coordinates := coordinates zone; color := Some c |}.
Proof.
  intros Hk. destruct (DISTRICT_COLORS_defined k) as [c Hc].
  eexists. exists c. split; [reflexivity|].
  split; [apply length_map_index|]. split; [exact Hc|].
  rewrite nth_error_map_index, Hk. cbn [option_map Nat.add id name coordinates].
  now rewrite Hc.
Qed.

Lemma ZONES_color_by_index_witness :
  exists (registry : list (Zone float)) (c : string),
    ZONES [zone_inner; two_vertex_zone] = Val registry
    /\ length registry = length [zone_inner; two_vertex_zone]
    /\ nth_error DISTRICT_COLORS (1 mod 10) = Some c
    /\ nth_error registry 1
       = Some {| id := id two_vertex_zone; name := name two_vertex_zone;
                 coordinates := coordinates two_vertex_zone;
                 color := Some c |}.
Proof.
  exact (ZONES_color_by_index [zone_inner; two_vertex_zone] 1
           two_vertex_zone eq_refl).
Defined.

(** X10.  Two zones of the registry that [ZONES] builds have the same colour
    exactly when their positions differ by a multiple of 10: the first ten
    zones get ten different colours, and the palette then repeats. *)
Theorem ZONES_same_color_iff {num : Type} {N : Number num}
    (FIRE_DISTRICT_ZONES registry : list (Zone num))
    (i j : nat) (zi zj : Zone num) :
  ZONES FIRE_DISTRICT_ZONES = Val registry ->
  nth_error registry i = Some zi ->
  nth_error registry j = Some zj ->
  (color zi = color zj <-> i mod 10 = j mod 10).
Proof.
  unfold ZONES. intros H Hi Hj. injection H as <-.
  rewrite nth_error_map_index in Hi, Hj.
  destruct (nth_error FIRE_DISTRICT_ZONES i) as [ri|]; [|discriminate].
  destruct (nth_error FIRE_DISTRICT_ZONES j) as [rj|]; [|discriminate].
  cbn [option_map Nat.add] in Hi, Hj. injection Hi as <-. injection Hj as <-.
  change (nth_error DISTRICT_COLORS (i mod 10)
          = nth_error DISTRICT_COLORS (j mod 10) <-> i mod 10 = j mod 10).
  split.
  - intros E.
    apply (proj1 (NoDup_nth_error DISTRICT_COLORS) DISTRICT_COLORS_NoDup);
      [|exact E].
    change (length DISTRICT_COLORS) with 10%nat.
    apply Nat.mod_upper_bound. discriminate.
  - now intros ->.
Qed.

Lemma ZONES_same_color_iff_witness :
  Some "#FF6B6B"%string = Some "#4ECDC4"%string <-> 0 mod 10 = 1 mod 10.
Proof.
  exact (ZONES_same_color_iff [zone_inner; zone_east]
           [ {| id := "inner"; name := "inner"; coordinates := [square_A];
                color := Some "#FF6B6B"%string |};
             {| id := "east"; name := "east"; coordinates := [square_east];
                color := Some "#4ECDC4"%string |} ]
           0 1
           {| id := "inner"; name := "inner"; coordinates := [square_A];
              color := Some "#FF6B6B"%string |}
           {| id := "east"; name := "east"; coordinates := [square_east];
              color := Some "#4ECDC4"%string |}
           eq_refl eq_refl eq_refl).
Defined.

(** ** Label placement in exact arithmetic *)

Lemma fold_left_Qplus (l : list Q) (a : Q) :
  fold_left Qplus l a == a + Qsum l.
Proof.
  revert a; induction l as [|x l IH]; intros a; simpl.
  - ring.
  - rewrite IH. ring.
Qed.

Lemma Q_of_nat_S (n : nat) :
  inject_Z (Z.of_nat (S n)) == inject_Z (Z.of_nat n) + 1.
Proof. rewrite Nat2Z.inj_succ. unfold Z.succ. now rewrite inject_Z_plus. Qed.

Lemma Q_of_nat_pos (n : nat) : 0 < inject_Z (Z.of_nat (S n)).
Proof.
  change 0 with (inject_Z 0). rewrite <- Zlt_Qlt. lia.
Qed.

Lemma Qsum_bounds (lo hi : Q) (l : list Q) :
  (forall x, In x l -> lo <= x /\ x <= hi) ->
  inject_Z (Z.of_nat (length l)) * lo <= Qsum l
  /\ Qsum l <= inject_Z (Z.of_nat (length l)) * hi.
Proof.
  induction l as [|x l IH]; intros H.
  - change (inject_Z (Z.of_nat (length (@nil Q)))) with 0.
    change (Qsum []) with 0. split; lra.
  - destruct (H x (or_introl eq_refl)) as [Hlo Hhi].
    destruct IH as [IHlo IHhi]; [intros y Hy; apply H; now right|].
    change (length (x :: l)) with (S (length l)). rewrite Q_of_nat_S.
    change (Qsum (x :: l)) with (x + Qsum l). split; lra.
Qed.

Lemma Qsum_Permutation (l l' : list Q) :
  Permutation l l' -> Qsum l == Qsum l'.
Proof.
  induction 1 as [|x l l' _ IH|x y l|l l' l'' _ IH1 _ IH2]; simpl.
  - reflexivity.
  - now rewrite IH.
  - ring.
  - now rewrite IH1.
Qed.

(** Over the rationals the result is the sum of each coordinate divided by
    the number of vertices. *)
Lemma center_Q (ring : Ring Q) :
  fst (calculatePolygonCenter ring)
  == Qsum (map fst ring) / inject_Z (Z.of_nat (length ring))
  /\ snd (calculatePolygonCenter ring)
     == Qsum (map snd ring) / inject_Z (Z.of_nat (length ring)).
Proof.
  rewrite center_is_arithmetic_mean. unfold arithmetic_mean, sum.
  cbn [fst snd add div zero of_nat Q_Number].
  rewrite !fold_left_Qplus. split; apply Qdiv_comp; try reflexivity; ring.
Qed.

Lemma Qdiv_bounds (s n lo hi : Q) :
  0 < n -> n * lo <= s -> s <= n * hi -> lo <= s / n /\ s / n <= hi.
Proof.
  intros Hn Hlo Hhi. split.
  - apply Qle_shift_div_l; [exact Hn|]. lra.
  - apply Qle_shift_div_r; [exact Hn|]. lra.
Qed.

(** X11.  In exact arithmetic the label position lies in the bounding box of
    the vertices: for a non-empty ring whose vertices all have longitude in
    [xlo, xhi] and latitude in [ylo, yhi], so has the point that
    [calculatePolygonCenter] returns. *)
Theorem calculatePolygonCenter_in_box (ring : Ring Q) (xlo xhi ylo yhi : Q) :
  ring <> [] ->
  (forall v, In v ring ->
     xlo <= fst v /\ fst v <= xhi /\ ylo <= snd v /\ snd v <= yhi) ->
  xlo <= fst (calculatePolygonCenter ring)
  /\ fst (calculatePolygonCenter ring) <= xhi
  /\ ylo <= snd (calculatePolygonCenter ring)
  /\ snd (calculatePolygonCenter ring) <= yhi.
Proof.
  intros Hne H. destruct (center_Q ring) as [Ex Ey]. rewrite Ex, Ey.
  destruct ring as [|v0 r]; [contradiction|].
  set (ring := v0 :: r) in *.
  assert (Hn : 0 < inject_Z (Z.of_nat (length ring)))
    by apply Q_of_nat_pos.
  assert (Hx : forall x, In x (map fst ring) -> xlo <= x /\ x <= xhi).
  { intros x Hx. apply in_map_iff in Hx. destruct Hx as [v [<- Hv]].
    destruct (H v Hv) as (? & ? & _). now split. }
  assert (Hy : forall y, In y (map snd ring) -> ylo <= y /\ y <= yhi).
  { intros y Hy. apply in_map_iff in Hy. destruct Hy as [v [<- Hv]].
    destruct (H v Hv) as (_ & _ & ? & ?). now split. }
  apply Qsum_bounds in Hx, Hy. rewrite length_map in Hx, Hy.
  destruct Hx as [Hx1 Hx2], Hy as [Hy1 Hy2].
  destruct (Qdiv_bounds _ _ _ _ Hn Hx1 Hx2).
  destruct (Qdiv_bounds _ _ _ _ Hn Hy1 Hy2).
  repeat split; assumption.
Qed.

Lemma calculatePolygonCenter_in_box_witness :
  0 <= fst (calculatePolygonCenter square_with_midpoint)
  /\ fst (calculatePolygonCenter square_with_midpoint) <= 2
  /\ 0 <= snd (calculatePolygonCenter square_with_midpoint)
  /\ snd (calculatePolygonCenter square_with_midpoint) <= 2.
Proof.
  apply (calculatePolygonCenter_in_box square_with_midpoint 0 2 0 2).
  - discriminate.
  - intros v Hv. simpl in Hv.
    destruct Hv as [<-|[<-|[<-|[<-|[<-|[]]]]]]; simpl;
      repeat split; discriminate.
Defined.

(** X12.  In exact arithmetic the label position does not depend on the
    order in which the vertices are listed: every rearrangement of the ring,
    so every rotation and the reversal, gives equal coordinates.  Over
    binary64 numbers the order can change the result by rounding, as for the
    ring [ring_tenths] and its rotation by one vertex. *)
Theorem calculatePolygonCenter_order :
  (forall ring ring' : Ring Q,
     Permutation ring ring' ->
     fst (calculatePolygonCenter ring) == fst (calculatePolygonCenter ring')
     /\ snd (calculatePolygonCenter ring)
        == snd (calculatePolygonCenter ring'))
  /\ calculatePolygonCenter (rotate 1 ring_tenths)
     <> calculatePolygonCenter ring_tenths.
Proof.
  split.
  - intros ring ring' P.
    destruct (center_Q ring) as [Ex Ey], (center_Q ring') as [Ex' Ey'].
    rewrite Ex, Ey, Ex', Ey', (Permutation_length P).
    split; apply Qdiv_comp; try reflexivity;
      apply Qsum_Permutation, Permutation_map, P.
  - intros E. apply (f_equal (fun c => PrimFloat.eqb (fst c) (fst (calculatePolygonCenter ring_tenths)))) in E.
    vm_compute in E. discriminate.
Qed.

Lemma calculatePolygonCenter_order_witness :
  fst (calculatePolygonCenter (rev square_with_midpoint))
  == fst (calculatePolygonCenter square_with_midpoint)
  /\ snd (calculatePolygonCenter (rev square_with_midpoint))
     == snd (calculatePolygonCenter square_with_midpoint).
Proof.
  apply (proj1 calculatePolygonCenter_order).
  apply Permutation_sym, Permutation_rev.
Defined.

Lemma Q_weighted_mean_fixed (n c v : Q) :
  0 < n -> ((n * c + v) / (n + 1) == c <-> v == c).
Proof.
  intros Hn.
  assert (X : (n * c + v) / (n + 1) * (n + 1) == n * c + v)
    by (field; lra).
  split; intros E.
  - rewrite E in X. lra.
  - rewrite E. field. lra.
Qed.

(** X13.  Unlike the point-in-polygon test, the label position depends on
    whether the ring is explicitly closed: repeating the first vertex [v] at
    the end of a ring of [n] vertices moves each coordinate [c] of the result
    to [(n * c + v) / (n + 1)], so the coordinate changes unless [v] already
    has it (stated in exact arithmetic). *)
Theorem calculatePolygonCenter_closed (v : Coordinate Q) (rest : Ring Q) :
  let n := inject_Z (Z.of_nat (length (v :: rest))) in
  let open := calculatePolygonCenter (v :: rest) in
  let closed := calculatePolygonCenter ((v :: rest) ++ [v]) in
  fst closed == (n * fst open + fst v) / (n + 1)
  /\ snd closed == (n * snd open + snd v) / (n + 1)
  /\ (fst closed == fst open <-> fst v == fst open)
  /\ (snd closed == snd open <-> snd v == snd open).
Proof.
  intros n open closed.
  assert (Hn : 0 < n) by apply Q_of_nat_pos.
  assert (E : fst closed == (n * fst open + fst v) / (n + 1)
              /\ snd closed == (n * snd open + snd v) / (n + 1)).
  { unfold open, closed.
    destruct (center_Q ((v :: rest) ++ [v])) as [Ex Ey].
    destruct (center_Q (v :: rest)) as [Ex' Ey'].
    rewrite Ex, Ey, Ex', Ey'. fold n.
    assert (El : inject_Z (Z.of_nat (length ((v :: rest) ++ [v]))) == n + 1).
    { rewrite length_app, Nat.add_comm. unfold n. apply Q_of_nat_S. }
    rewrite El, !map_app.
    assert (Es : forall l x, Qsum (l ++ [x]) == Qsum l + x).
    { intros l x. induction l as [|y l IH]; simpl; [ring|].
      rewrite IH. ring. }
    change (map fst [v]) with [fst v]. change (map snd [v]) with [snd v].
    rewrite !Es. clearbody n. unfold Ring, Coordinate in *.
    split; field; lra. }
  destruct E as [Ex Ey]. split; [exact Ex|]. split; [exact Ey|].
  rewrite Ex, Ey. split; now apply Q_weighted_mean_fixed.
Qed.

(** ** The map's load handler *)

Section OnLoad.

Context {num : Type} {N : Number num}.

Variable library : MapLibrary num.

Lemma make_calls_app (c1 c2 log : list (MapCall num)) :
  make_calls library (c1 ++ c2) log
  = match make_calls library c1 log with
    | (log', None) => make_calls library c2 log'
    | stopped => stopped
    end.
Proof.
  revert log; induction c1 as [|c c1 IH]; intros log; [reflexivity|].
  simpl. destruct (library log c); [apply IH|reflexivity].
Qed.

(** The calls that have returned are the first of the calls made; the call
    that threw, if any, is the next one. *)
Lemma make_calls_prefix (calls log : list (MapCall num)) :
  exists done : list (MapCall num),
    fst (make_calls library calls log) = log ++ done
    /\ match snd (make_calls library calls log) with
       | None => calls = done
       | Some call =>
           (exists rest, calls = done ++ call :: rest)
           /\ library (log ++ done) call = false
       end.
Proof.
  revert log; induction calls as [|c calls IH]; intros log.
  - exists []. simpl. now rewrite app_nil_r.
  - simpl. destruct (library log c) eqn:E.
    + destruct (IH (log ++ [c])) as (done & Hf & Hs). exists (c :: done).
      rewrite Hf, <- app_assoc. split; [reflexivity|].
      destruct (snd (make_calls library calls (log ++ [c]))) as [call|].
      * destruct Hs as [[rest ->] Hr]. rewrite <- app_assoc in Hr.
        split; [now exists rest|exact Hr].
      * now rewrite Hs.
    + exists []. simpl. rewrite app_nil_r.
      split; [reflexivity|]. split; [now exists calls|exact E].
Qed.

Lemma make_calls_None (calls log : list (MapCall num)) :
  snd (make_calls library calls log) = None ->
  make_calls library calls log = (log ++ calls, None).
Proof.
  intros H. destruct (make_calls_prefix calls log) as (done & Hf & Hs).
  rewrite H in Hs. subst done.
  destruct (make_calls library calls log) as [l r]. simpl in *. now subst.
Qed.

Lemma zone_calls_boundary (zone : Zone num) (log : list (MapCall num)) :
  has_boundary zone ->
  zone_calls library zone log
  = match make_calls library (planned_calls zone) log with
    | (log', None) => (log', load_returned)
    | (log', Some call) => (log', load_refused call)
    end.
Proof.
  unfold has_boundary, zone_calls, planned_calls. intros H.
  destruct (coordinates zone) as [|ring rest] eqn:E; [contradiction|].
  rewrite make_calls_app.
  now destruct (make_calls library (zone_layers zone) log) as [l [c|]].
Qed.

Lemma zone_calls_ringless (zone : Zone num) (log : list (MapCall num)) :
  coordinates zone = [] ->
  zone_calls library zone log
  = match make_calls library (zone_layers zone) log with
    | (log', None) => (log', load_TypeError)
    | (log', Some call) => (log', load_refused call)
    end.
Proof.
  unfold zone_calls. intros E. rewrite E.
  now destruct (make_calls library (zone_layers zone) log) as [l [c|]].
Qed.

Lemma planned_calls_ringless (zone : Zone num) :
  coordinates zone = [] -> planned_calls zone = zone_layers zone.
Proof. unfold planned_calls. intros ->. apply app_nil_r. Qed.

Lemma load_zones_boundary (registry : list (Zone num)) :
  Forall has_boundary registry ->
  forall log : list (MapCall num),
    load_zones library registry log
    = match make_calls library (flat_map planned_calls registry) log with
      | (log', None) => (log', load_returned)
      | (log', Some call) => (log', load_refused call)
      end.
Proof.
  induction 1 as [|z rest Hz _ IH]; intros log; [reflexivity|].
  cbn [load_zones flat_map].
  rewrite (zone_calls_boundary z log Hz), make_calls_app.
  destruct (make_calls library (planned_calls z) log) as [l [c|]];
    [reflexivity|apply IH].
Qed.

Lemma load_zones_ringless (before after : list (Zone num)) (zone : Zone num) :
  Forall has_boundary before ->
  coordinates zone = [] ->
  forall log : list (MapCall num),
    load_zones library (before ++ zone :: after) log
    = match make_calls library
              (flat_map planned_calls before ++ zone_layers zone) log with
      | (log', None) => (log', load_TypeError)
      | (log', Some call) => (log', load_refused call)
      end.
Proof.
  intros Hb Ez. induction Hb as [|z rest Hz _ IH]; intros log.
  - cbn [app flat_map load_zones]. rewrite (zone_calls_ringless zone log Ez).
    now destruct (make_calls library (zone_layers zone) log) as [l [c|]].
  - cbn [app load_zones flat_map].
    rewrite (zone_calls_boundary z log Hz), <- app_assoc, make_calls_app.
    destruct (make_calls library (planned_calls z) log) as [l [c|]];
      [reflexivity|apply IH].
Qed.

(** Either every zone has a ring, or there is a first zone without one. *)
Lemma registry_shape (registry : list (Zone num)) :
  Forall has_boundary registry
  \/ exists before zone after,
       registry = before ++ zone :: after
       /\ Forall has_boundary before /\ coordinates zone = [].
Proof.
  induction registry as [|z rest IH]; [left; constructor|].
  destruct (coordinates z) as [|ring more] eqn:Ez.
  - right. now exists [], z, rest.
  - assert (Hz : has_boundary z) by (unfold has_boundary; now rewrite Ez).
    destruct IH as [Hall|(before & zone & after & -> & Hb & E)].
    + left. now constructor.
    + right. exists (z :: before), zone, after.
      split; [reflexivity|]. split; [now constructor|exact E].
Qed.

(** How the handler ends, and what the map has by then. *)
Lemma on_load_cases (registry : list (Zone num)) :
  exists rest : list (MapCall num),
    match snd (on_load library registry) with
    | load_returned =>
        Forall has_boundary registry
        /\ fst (on_load library registry) = flat_map planned_calls registry
    | load_TypeError =>
        exists before zone after,
          registry = before ++ zone :: after
          /\ Forall has_boundary before /\ coordinates zone = []
          /\ fst (on_load library registry)
             = flat_map planned_calls before ++ zone_layers zone
          /\ flat_map planned_calls registry
             = fst (on_load library registry) ++ rest
    | load_refused call =>
        flat_map planned_calls registry
        = fst (on_load library registry) ++ call :: rest
        /\ library (fst (on_load library registry)) call = false
    end.
Proof.
  unfold on_load.
  destruct (registry_shape registry)
    as [Hall|(before & zone & after & -> & Hb & Ez)].
  - rewrite (load_zones_boundary registry Hall []).
    destruct (make_calls_prefix (flat_map planned_calls registry) [])
      as (done & Hf & Hs).
    destruct (make_calls library (flat_map planned_calls registry) [])
      as [l [c|]]; simpl in *; subst l.
    + destruct Hs as [[rest ->] Hr]. now exists rest.
    + exists []. now subst done.
  - rewrite (load_zones_ringless before after zone Hb Ez []).
    rewrite flat_map_app. cbn [flat_map].
    rewrite (planned_calls_ringless zone Ez), app_assoc.
    destruct (make_calls_prefix
                (flat_map planned_calls before ++ zone_layers zone) [])
      as (done & Hf & Hs).
    destruct (make_calls library
                (flat_map planned_calls before ++ zone_layers zone) [])
      as [l [c|]]; simpl in *; subst l.
    + destruct Hs as [[rest Hrest] Hr].
      exists (rest ++ flat_map planned_calls after).
      rewrite Hrest, <- app_assoc. now split.
    + exists (flat_map planned_calls after). subst done.
      exists before, zone, after. now repeat split.
Qed.

Lemma planned_calls_length (registry : list (Zone num)) :
  Forall has_boundary registry ->
  length (flat_map planned_calls registry) = (4 * length registry)%nat
  /\ map Some (markers (flat_map planned_calls registry))
     = map (fun z => option_map calculatePolygonCenter
                       (hd_error (coordinates z))) registry.
Proof.
  induction 1 as [|z rest Hz _ [IH1 IH2]]; [split; reflexivity|].
  unfold has_boundary in Hz. cbn [flat_map].
  replace (markers (planned_calls z ++ flat_map planned_calls rest))
    with (markers (planned_calls z) ++ markers (flat_map planned_calls rest))
    by (symmetry; apply flat_map_app).
  rewrite length_app, map_app, IH1, IH2. unfold planned_calls.
  destruct (coordinates z) as [|ring more] eqn:Ez; [contradiction|].
  split; [simpl; lia|]. cbn [map]. now rewrite Ez.
Qed.

End OnLoad.

Lemma make_calls_lenient {num : Type} (calls : list (MapCall num)) :
  forall log : list (MapCall num),
    make_calls lenient calls log = (log ++ calls, None).
Proof.
  induction calls as [|c calls IH]; intros log; simpl.
  - now rewrite app_nil_r.
  - now rewrite IH, <- app_assoc.
Qed.

(** The library whose calls all return lets any calls return. *)
Lemma lenient_accepted {num : Type} (calls : list (MapCall num)) :
  accepted lenient calls.
Proof. exact (make_calls_lenient calls []). Qed.

(** X14.  The load handler returns exactly when every zone of the registry
    has a ring and the map library lets every call return.  When it returns
    it has made four calls per zone and placed one label per zone, in
    registry order, at [calculatePolygonCenter] of the zone's first ring.
    It throws a [TypeError] only for a registry with a zone without a ring,
    and otherwise the error of the call that the library refused. *)
Theorem on_load_completes_iff {num : Type} {N : Number num}
    (library : MapLibrary num) (registry : list (Zone num)) :
  (snd (on_load library registry) = load_returned
   <-> Forall has_boundary registry
       /\ accepted library (flat_map planned_calls registry))
  /\ (snd (on_load library registry) = load_returned ->
      fst (on_load library registry) = flat_map planned_calls registry
      /\ length (fst (on_load library registry)) = (4 * length registry)%nat
      /\ map Some (markers (fst (on_load library registry)))
         = map (fun z => option_map calculatePolygonCenter
                           (hd_error (coordinates z))) registry)
  /\ (snd (on_load library registry) = load_TypeError ->
      Exists (fun z => coordinates z = []) registry)
  /\ (forall call : MapCall num,
        snd (on_load library registry) = load_refused call ->
        library (fst (on_load library registry)) call = false).
Proof.
  destruct (on_load_cases library registry) as [rest H].
  split; [|split; [|split]].
  - split.
    + intros E. rewrite E in H. destruct H as [Hall Hf].
      split; [exact Hall|]. unfold accepted.
      unfold on_load in E, Hf. rewrite (load_zones_boundary _ _ Hall) in E, Hf.
      destruct (make_calls library (flat_map planned_calls registry) [])
        as [l [c|]]; [discriminate|]. simpl in Hf. now subst.
    + intros [Hall Hacc]. unfold on_load.
      rewrite (load_zones_boundary _ _ Hall). unfold accepted in Hacc.
      now rewrite Hacc.
  - intros E. rewrite E in H. destruct H as [Hall Hf]. rewrite Hf.
    split; [reflexivity|]. apply planned_calls_length, Hall.
  - intros E. rewrite E in H.
    destruct H as (before & zone & after & -> & _ & Ez & _).
    apply Exists_exists. exists zone. split; [|exact Ez].
    apply in_or_app. right. now left.
  - intros call E. rewrite E in H. apply H.
Qed.

Lemma on_load_completes_iff_witness :
  snd (on_load refuses_nan [zone_inner; zone_east]) = load_returned.
Proof.
  apply (proj2 (proj1 (on_load_completes_iff refuses_nan
                         [zone_inner; zone_east]))).
  split; [repeat constructor; discriminate|reflexivity].
Defined.

(** X15.  When the load handler reaches a zone with no ring it stops there,
    whatever the map library does: it never returns, and the map has no label
    for that zone and nothing of the zones after it.  When the library has
    let the calls made so far return, the handler throws a [TypeError], and
    the map has the source and the two layers of that zone after the calls
    of the zones before it. *)
Theorem on_load_stops_at_ringless {num : Type} {N : Number num}
    (library : MapLibrary num) (before after : list (Zone num))
    (zone : Zone num) :
  Forall has_boundary before ->
  coordinates zone = [] ->
  snd (on_load library (before ++ zone :: after)) <> load_returned
  /\ (exists rest : list (MapCall num),
        flat_map planned_calls before ++ zone_layers zone
        = fst (on_load library (before ++ zone :: after)) ++ rest)
  /\ (snd (on_load library (before ++ zone :: after)) = load_TypeError
      <-> accepted library (flat_map planned_calls before ++ zone_layers zone))
  /\ (accepted library (flat_map planned_calls before ++ zone_layers zone) ->
      fst (on_load library before) = flat_map planned_calls before
      /\ on_load library (before ++ zone :: after)
         = (fst (on_load library before)
            ++ [ addSource (id zone) [];
                 addLayer (id zone ++ "-fill") fill (id zone) (color zone);
                 addLayer (id zone ++ "-outline") line (id zone)
                   (color zone) ],
            load_TypeError)).
Proof.
  intros Hb Ez. unfold on_load.
  rewrite (load_zones_ringless library before after zone Hb Ez []).
  rewrite (load_zones_boundary library before Hb []).
  destruct (make_calls_prefix library
              (flat_map planned_calls before ++ zone_layers zone) [])
    as (done & Hf & Hs).
  pose proof (make_calls_app library (flat_map planned_calls before)
                (zone_layers zone) []) as Happ.
  unfold accepted.
  destruct (make_calls library
              (flat_map planned_calls before ++ zone_layers zone) [])
    as [l [c|]]; simpl in Hf, Hs; subst l.
  - destruct Hs as [[rest Hrest] Hr].
    split; [discriminate|]. split; [now exists (c :: rest)|].
    split; [split; discriminate|discriminate].
  - subst done. split; [discriminate|]. split; [exists []; now rewrite app_nil_r|].
    split; [now split|]. intros _.
    destruct (make_calls_prefix library (flat_map planned_calls before) [])
      as (done & Hf & Hs).
    destruct (make_calls library (flat_map planned_calls before) [])
      as [l [c|]]; simpl in Hf, Hs; subst l.
    + discriminate.
    + subst done. simpl. unfold zone_layers. rewrite Ez.
      split; reflexivity.
Qed.

Lemma on_load_stops_at_ringless_witness :
  on_load lenient [zone_inner; zone_without_ring; zone_east]
  = (fst (on_load lenient [zone_inner])
     ++ [ addSource "empty" [];
          addLayer "empty-fill" fill "empty" None;
          addLayer "empty-outline" line "empty" None ],
     load_TypeError).
Proof.
  apply (on_load_stops_at_ringless lenient [zone_inner] [zone_east]
           zone_without_ring).
  - repeat constructor; discriminate.
  - reflexivity.
  - reflexivity.
Defined.

(** ** Identifiers of sources and layers *)

Lemma last_char_append (s t : string) :
  t <> EmptyString -> last_char (s ++ t) = last_char t.
Proof.
  intros Ht. induction s as [|c s IH]; [reflexivity|].
  simpl append. simpl last_char. rewrite IH.
  destruct (s ++ t)%string eqn:E; [|reflexivity].
  destruct s; simpl in E; [now elim Ht|discriminate].
Qed.

Lemma fill_not_outline (s t : string) :
  (s ++ "-fill")%string <> (t ++ "-outline")%string.
Proof.
  intros E. apply (f_equal last_char) in E.
  rewrite !last_char_append in E by discriminate. discriminate.
Qed.

Lemma length_append (s t : string) :
  String.length (s ++ t) = (String.length s + String.length t)%nat.
Proof. induction s as [|c s IH]; simpl; [reflexivity|now rewrite IH]. Qed.

Lemma append_inj_l (s t suffix : string) :
  (s ++ suffix)%string = (t ++ suffix)%string -> s = t.
Proof.
  revert t; induction s as [|c s IH]; intros [|d t] E.
  - reflexivity.
  - apply (f_equal String.length) in E. simpl in E.
    rewrite length_append in E. lia.
  - apply (f_equal String.length) in E. simpl in E.
    rewrite length_append in E. lia.
  - simpl in E. injection E as -> E. f_equal. now apply IH.
Qed.

Section Identifiers.

Context {num : Type} {N : Number num}.

Lemma planned_calls_ids (zone : Zone num) :
  layer_ids (planned_calls zone)
  = [ (id zone ++ "-fill")%string; (id zone ++ "-outline")%string ]
  /\ source_ids (planned_calls zone) = [ id zone ].
Proof.
  unfold planned_calls. now destruct (coordinates zone).
Qed.

Lemma layer_ids_app (c1 c2 : list (MapCall num)) :
  layer_ids (c1 ++ c2) = layer_ids c1 ++ layer_ids c2.
Proof. apply flat_map_app. Qed.

Lemma source_ids_app (c1 c2 : list (MapCall num)) :
  source_ids (c1 ++ c2) = source_ids c1 ++ source_ids c2.
Proof. apply flat_map_app. Qed.

(** Every identifier the handler uses comes from a zone of the registry. *)
Lemma planned_ids_from (registry : list (Zone num)) :
  (forall s, In s (layer_ids (flat_map planned_calls registry)) ->
     exists z, In z registry
               /\ (s = (id z ++ "-fill")%string
                   \/ s = (id z ++ "-outline")%string))
  /\ (forall s, In s (source_ids (flat_map planned_calls registry)) ->
        exists z, In z registry /\ s = id z).
Proof.
  induction registry as [|zone rest [IHl IHs]]; [split; intros s []|].
  destruct (planned_calls_ids zone) as [El Es].
  cbn [flat_map]. split; intros s H.
  - rewrite layer_ids_app, El in H. apply in_app_or in H.
    destruct H as [H|H].
    + exists zone. split; [now left|].
      destruct H as [<-|[<-|[]]]; [now left|now right].
    + destruct (IHl s H) as (z & Hz & E). exists z. split; [now right|exact E].
  - rewrite source_ids_app, Es in H. apply in_app_or in H.
    destruct H as [H|H].
    + exists zone. split; [now left|]. now destruct H as [<-|[]].
    + destruct (IHs s H) as (z & Hz & E). exists z. split; [now right|exact E].
Qed.

Lemma planned_ids_NoDup (registry : list (Zone num)) :
  NoDup (map id registry) ->
  NoDup (layer_ids (flat_map planned_calls registry))
  /\ NoDup (source_ids (flat_map planned_calls registry)).
Proof.
  induction registry as [|zone rest IH]; [split; constructor|].
  intros Hnd. inversion Hnd as [|? ? Hnotin Hrest]; subst.
  destruct (IH Hrest) as [IHl IHs].
  destruct (planned_ids_from rest) as [Fl Fs].
  destruct (planned_calls_ids zone) as [El Es].
  assert (Hown : NoDup [ (id zone ++ "-fill")%string;
                         (id zone ++ "-outline")%string ]).
  { constructor; [|constructor; [intros []|constructor]].
    intros [E|[]]. symmetry in E. now apply fill_not_outline in E. }
  cbn [flat_map].
  rewrite layer_ids_app, source_ids_app, El, Es. split.
  - apply NoDup_app; [exact Hown|exact IHl|].
    intros s Hs Hlater. destruct (Fl s Hlater) as (z & Hz & E).
    assert (Hid : id z <> id zone).
    { intros Eid. apply Hnotin. rewrite <- Eid. now apply in_map. }
    destruct Hs as [<-|[<-|[]]], E as [E|E].
    + apply append_inj_l in E. congruence.
    + now apply fill_not_outline in E.
    + symmetry in E. now apply fill_not_outline in E.
    + apply append_inj_l in E. congruence.
  - simpl. constructor; [|exact IHs].
    intros Hin. destruct (Fs _ Hin) as (z & Hz & E).
    apply Hnotin. rewrite E. now apply in_map.
Qed.

Lemma ids_NoDup_prefix (calls rest : list (MapCall num)) :
  NoDup (layer_ids (calls ++ rest)) /\ NoDup (source_ids (calls ++ rest)) ->
  NoDup (source_ids calls) /\ NoDup (layer_ids calls).
Proof.
  rewrite layer_ids_app, source_ids_app. intros [Hl Hs].
  split; [exact (NoDup_app_remove_r _ _ Hs)|exact (NoDup_app_remove_r _ _ Hl)].
Qed.

End Identifiers.

(** X16.  When the zones of the registry have different ids, the load
    handler never gives two sources the same id nor two layers the same id,
    whatever the map library lets return: the source of a zone is named by
    its id, its layers by the id followed by [-fill] and [-outline], and
    those names cannot collide.  A call that the library refuses does not
    repeat an id either. *)
Theorem on_load_ids_unique {num : Type} {N : Number num}
    (library : MapLibrary num) (registry : list (Zone num)) :
  NoDup (map id registry) ->
  NoDup (source_ids (fst (on_load library registry)))
  /\ NoDup (layer_ids (fst (on_load library registry)))
  /\ forall call : MapCall num,
       snd (on_load library registry) = load_refused call ->
       NoDup (source_ids (fst (on_load library registry) ++ [call]))
       /\ NoDup (layer_ids (fst (on_load library registry) ++ [call])).
Proof.
  intros H. pose proof (planned_ids_NoDup registry H) as Hplanned.
  destruct (on_load_cases library registry) as [rest Hcases].
  assert (Hlog : NoDup (source_ids (fst (on_load library registry)))
                 /\ NoDup (layer_ids (fst (on_load library registry)))).
  { destruct (snd (on_load library registry)) as [| |call].
    - destruct Hcases as [_ ->]. now split.
    - destruct Hcases as (b & z & a & _ & _ & _ & _ & E).
      rewrite E in Hplanned. exact (ids_NoDup_prefix _ _ Hplanned).
    - destruct Hcases as [E _]. rewrite E in Hplanned.
      exact (ids_NoDup_prefix _ _ Hplanned). }
  split; [apply Hlog|]. split; [apply Hlog|].
  intros call E. rewrite E in Hcases. destruct Hcases as [Ecalls _].
  rewrite Ecalls in Hplanned.
  change (call :: rest) with ([call] ++ rest) in Hplanned.
  rewrite app_assoc in Hplanned. exact (ids_NoDup_prefix _ _ Hplanned).
Qed.

Lemma on_load_ids_unique_witness :
  NoDup (layer_ids (fst (on_load lenient [zone_inner; zone_east]))).
Proof.
  refine (proj1 (proj2 (on_load_ids_unique lenient [zone_inner; zone_east]
                          _))).
  repeat constructor; simpl; intuition discriminate.
Defined.

(** ** The address search *)

Section Search.

Context {num : Type} {N : Number num}.

Variable registry : list (Zone num).

(** The three ways the [try] block can end. *)
Lemma search_try_cases (geocoded : Geocoded num) (map_ok : bool)
    (s : AppState num) :
  search_try registry geocoded map_ok s = None
  \/ (exists features,
        geocoded = data features
        /\ (features = None \/ features = Some [])
        /\ search_try registry geocoded map_ok s
           = Some {| lng := lng s; lat := lat s; address := address s;
                     currentZone := currentZone s; loading := loading s;
                     error := Some ADDRESS_NOT_FOUND |})
  \/ (exists feature rest point zone,
        geocoded = data (Some (feature :: rest))
        /\ center feature = Some point
        /\ map_ok = true
        /\ findZone registry point = Val zone
        /\ search_try registry geocoded map_ok s
           = Some {| lng := fst point; lat := snd point;
                     address := address s; currentZone := zone;
                     loading := loading s; error := error s |}).
Proof.
  destruct geocoded as [|[[|feature rest]|]]; simpl.
  - now left.
  - right. left. exists (Some []). auto.
  - destruct (center feature) as [point|] eqn:Ec; [|now left].
    destruct map_ok; [|now left].
    destruct (findZone registry point) as [zone| | |] eqn:Ef; try now left.
    right. right. exists feature, rest, point, zone. auto.
  - right. left. exists None. auto.
Qed.

End Search.

(** X17.  While the request is pending none of the three result panels of
    the sidebar is shown.  When the search of a non-empty address has
    finished, [loading] is false and exactly one panel is shown: the error
    message, the zone found, or the notice that the address is in no zone. *)
Theorem search_shows_one_panel {num : Type} {N : Number num}
    (registry : list (Zone num)) (geocoded : Geocoded num) (map_ok : bool)
    (s : AppState num) :
  truthy (address s) = true ->
  let pending := search_started s in
  let settled := handleAddressSearch registry geocoded map_ok s in
  (shows_error pending = false /\ shows_zone pending = false
   /\ shows_no_zone pending = false)
  /\ loading settled = false
  /\ ((shows_error settled = true /\ shows_zone settled = false
       /\ shows_no_zone settled = false)
      \/ (shows_error settled = false /\ shows_zone settled = true
          /\ shows_no_zone settled = false)
      \/ (shows_error settled = false /\ shows_zone settled = false
          /\ shows_no_zone settled = true)).
Proof.
  intros Ha pending settled. split; [repeat split|]. split; [reflexivity|].
  unfold settled, handleAddressSearch.
  destruct (search_try_cases registry geocoded map_ok (search_started s))
    as [E|[(features & _ & _ & E)|(feature & rest & point & zone & _ & _ & _ & _ & E)]];
    rewrite E; unfold shows_error, shows_zone, shows_no_zone; cbn.
  - left. auto.
  - left. auto.
  - destruct zone; [right; left; auto|].
    right. right. rewrite Ha. auto.
Qed.

Lemma search_shows_one_panel_witness :
  shows_zone (handleAddressSearch [zone_inner; zone_east] answer_A true
                idle_state) = true.
Proof.
  destruct (proj2 (proj2 (search_shows_one_panel
                            [zone_inner; zone_east] answer_A true idle_state
                            eq_refl)))
    as [(_ & H & _)|[(_ & H & _)|(_ & H & _)]];
    [vm_compute in H; discriminate|exact H|vm_compute in H; discriminate].
Defined.

(** X18.  After a search the sidebar shows a zone only if the geocoder gave a
    feature with a centre, the map calls returned, and that zone is the
    first zone of the registry that contains the centre; then no error is
    set and the stored position is the centre. *)
Theorem search_zone_shown {num : Type} {N : Number num}
    (registry : list (Zone num)) (geocoded : Geocoded num) (map_ok : bool)
    (s : AppState num) (zone : Zone num) :
  currentZone (handleAddressSearch registry geocoded map_ok s) = Some zone ->
  exists feature rest point,
    geocoded = data (Some (feature :: rest))
    /\ center feature = Some point
    /\ map_ok = true
    /\ first_containing point registry zone
    /\ lng (handleAddressSearch registry geocoded map_ok s) = fst point
    /\ lat (handleAddressSearch registry geocoded map_ok s) = snd point
    /\ error (handleAddressSearch registry geocoded map_ok s) = None.
Proof.
  unfold handleAddressSearch.
  destruct (search_try_cases registry geocoded map_ok (search_started s))
    as [E|[(features & _ & _ & E)
          |(feature & rest & point & z & Eg & Ec & Em & Ef & E)]];
    rewrite E; cbn; try discriminate.
  intros H. subst z. exists feature, rest, point.
  repeat split; try assumption.
  destruct (findZone_cases registry point)
    as [[_ E']|[[z' [Hz' E']]|[_ E']]]; rewrite E' in Ef; try discriminate.
  now injection Ef as ->.
Qed.

Lemma search_zone_shown_witness :
  exists feature rest point,
    answer_A = data (Some (feature :: rest))
    /\ center feature = Some point
    /\ true = true
    /\ first_containing point [zone_inner; zone_east] zone_inner
    /\ lng (handleAddressSearch [zone_inner; zone_east] answer_A true
              idle_state) = fst point
    /\ lat (handleAddressSearch [zone_inner; zone_east] answer_A true
              idle_state) = snd point
    /\ error (handleAddressSearch [zone_inner; zone_east] answer_A true
                idle_state) = None.
Proof.
  apply (search_zone_shown [zone_inner; zone_east] answer_A true idle_state
           zone_inner).
  vm_compute. reflexivity.
Defined.

(** X19.  A defect of the registry is reported as a geocoding error: when the
    geocoder gives a feature with a centre but [findZone] throws at a zone
    with no ring, the search ends with the message "Error geocoding address.
    Please try again.", no zone, and the position it had before. *)
Theorem search_registry_error {num : Type} {N : Number num}
    (registry : list (Zone num)) (feature : Feature num)
    (rest : list (Feature num)) (point : Coordinate num) (map_ok : bool)
    (s : AppState num) :
  center feature = Some point ->
  stops_at_ringless point registry ->
  let settled :=
    handleAddressSearch registry (data (Some (feature :: rest))) map_ok s in
  error settled = Some ERROR_GEOCODING
  /\ currentZone settled = None
  /\ lng settled = lng s /\ lat settled = lat s
  /\ loading settled = false.
Proof.
  intros Ec (before & zone & after & -> & Hz & Hbefore) settled.
  unfold settled, handleAddressSearch, search_try. rewrite Ec.
  rewrite (findZone_skip _ _ _ Hbefore), (findZone_ringless _ _ _ Hz).
  destruct map_ok; cbn; auto.
Qed.

Lemma search_registry_error_witness :
  error (handleAddressSearch [zone_east; zone_without_ring; zone_inner]
           answer_A true idle_state)
  = Some ERROR_GEOCODING.
Proof.
  apply (search_registry_error [zone_east; zone_without_ring; zone_inner]
           {| center := Some point_A; place_name := "1 Main St" |} []
           point_A true idle_state eq_refl).
  exists [zone_east], zone_without_ring, [zone_inner].
  split; [reflexivity|]. split; [reflexivity|].
  constructor; [|constructor]. split; [discriminate|].
  vm_compute. reflexivity.
Defined.

(** ** More on the point-in-polygon test *)

(** X20.  A vertex listed twice in a row, anywhere in the ring, changes
    nothing: the edge from a vertex to itself is never crossed.  This holds
    in every arithmetic. *)
Theorem isPointInPolygon_repeated_vertex {num : Type} {N : Number num}
    (point : Coordinate num) (l1 l2 : Ring num) (v : Coordinate num) :
  isPointInPolygon point (l1 ++ v :: v :: l2)
  = isPointInPolygon point (l1 ++ v :: l2).
Proof.
  rewrite !isPointInPolygon_parity. f_equal.
  rewrite (parity_Permutation _ _
             (Permutation_map _ (cyclic_edges_rotate (v :: v :: l2) l1))).
  rewrite (parity_Permutation _ _
             (Permutation_map _ (cyclic_edges_rotate (v :: l2) l1))).
  change ((v :: v :: l2) ++ l1) with (v :: v :: l2 ++ l1).
  change ((v :: l2) ++ l1) with (v :: l2 ++ l1).
  rewrite (cyclic_edges_cons v (v :: l2 ++ l1)), (cyclic_edges_cons v (l2 ++ l1)).
  change (path (v :: (v :: l2 ++ l1) ++ [v]))
    with ((v, v) :: path (v :: (l2 ++ l1) ++ [v])).
  rewrite map_cons, parity_cons, crosses_self. reflexivity.
Qed.

(** X21.  Over binary64 numbers a ring of no vertex or of one vertex contains
    no point, but a ring of two vertices can: rounding may count the segment
    once in one direction and not in the other. *)
Theorem degenerate_rings_binary64 :
  (forall (point : Coordinate float) (ring : Ring float),
     (length ring < 2)%nat -> isPointInPolygon point ring = Val false)
  /\ (exists (point : Coordinate float) (ring : Ring float),
        length ring = 2%nat /\ isPointInPolygon point ring = Val true).
Proof.
  split.
  - intros point ring H. now apply at_most_one_vertex_false.
  - exists near_edge_point, [ (0, 0); (1, 3) ]%float.
    split; [reflexivity|]. vm_compute. reflexivity.
Qed.

Lemma degenerate_rings_binary64_witness :
  isPointInPolygon point_A [ ((-122.19)%float, 47.60%float) ] = Val false.
Proof.
  apply (proj1 degenerate_rings_binary64). simpl. lia.
Defined.

(** ** Coordinates that are not numbers *)

Lemma SFeqb_refl (a : spec_float) : a <> S754_nan -> SFeqb a a = true.
Proof.
  unfold SFeqb. destruct a as [s|s| |s m e]; simpl; intros H.
  - reflexivity.
  - now destruct s.
  - now elim H.
  - rewrite Z.compare_refl.
    change (Pos.compare_cont Eq m m) with (Pos.compare m m).
    rewrite Pos.compare_refl. now destruct s.
Qed.

Lemma float_nan_ltb (x y : float) :
  PrimFloat.is_nan x = true ->
  PrimFloat.ltb x y = false /\ PrimFloat.ltb y x = false.
Proof.
  unfold PrimFloat.is_nan. rewrite eqb_spec, !ltb_spec. intros H.
  assert (E : Prim2SF x = S754_nan).
  { destruct (Prim2SF x) as [s|s| |s m e] eqn:Ex; [| |reflexivity|];
      rewrite SFeqb_refl in H; discriminate. }
  rewrite E. unfold SFltb. simpl. split; [reflexivity|].
  now destruct (Prim2SF y).
Qed.

(** X22.  A point with a NaN coordinate is in no polygon and in no zone: when
    the longitude or the latitude is NaN, [isPointInPolygon] returns false
    for every ring, and [findZone] returns none on every registry whose zones
    have a boundary. *)
Theorem nan_point_in_no_zone (lng lat : float) :
  PrimFloat.is_nan lng = true \/ PrimFloat.is_nan lat = true ->
  (forall ring : Ring float, isPointInPolygon (lng, lat) ring = Val false)
  /\ (forall registry : list (Zone float),
        Forall has_boundary registry ->
        findZone registry (lng, lat) = Val None).
Proof.
  intros H.
  assert (P : forall ring : Ring float,
            isPointInPolygon (lng, lat) ring = Val false).
  { intros ring. destruct H as [H|H].
    - rewrite isPointInPolygon_parity. f_equal. apply parity_all_false.
      intros [[xj yj] [xi yi]] _. unfold crosses.
      cbn [fst snd ltb float_Number].
      rewrite (proj1 (float_nan_ltb lng _ H)). apply andb_false_r.
    - apply same_side_false with (north := false). intros v _.
      cbn [snd gtb float_Number]. apply (proj1 (float_nan_ltb lat _ H)). }
  split; [exact P|].
  intros registry Hvalid. rewrite (findZone_find _ _ Hvalid). f_equal.
  apply find_none. apply Forall_forall. intros z _. unfold contains.
  destruct (coordinates z) as [|boundary more]; [reflexivity|].
  now rewrite P.
Qed.

Lemma nan_point_in_no_zone_witness :
  findZone [zone_inner; zone_east] (PrimFloat.nan, 47.60%float) = Val None.
Proof.
  apply (proj2 (nan_point_in_no_zone PrimFloat.nan 47.60%float
                  (or_introl eq_refl))).
  repeat constructor; discriminate.
Defined.

(** ** Moving a ring, in exact arithmetic *)

Lemma cyclic_edges_map {num : Type} (f : Coordinate num -> Coordinate num)
    (ring : Ring num) :
  cyclic_edges (map f ring)
  = map (fun e => (f (fst e), f (snd e))) (cyclic_edges ring).
Proof.
  unfold cyclic_edges.
  replace (tl (map f ring) ++ firstn 1 (map f ring))
    with (map f (tl ring ++ firstn 1 ring))
    by (rewrite map_app; destruct ring as [|v r]; reflexivity).
  generalize (tl ring ++ firstn 1 ring). intros l.
  revert l; induction ring as [|v r IH]; intros [|w l]; try reflexivity.
  simpl. now rewrite IH.
Qed.

Lemma Q_crosses_translate (dx dy lng lat : Q) (e : Edge Q) :
  crosses (lng + dx) (lat + dy)
    (translate dx dy (fst e), translate dx dy (snd e))
  = crosses lng lat e.
Proof.
  destruct e as [[xj yj] [xi yi]]. unfold crosses, translate.
  cbn [fst snd gtb ltb add sub mul div Q_Number].
  assert (Gi : Qltb (lat + dy) (yi + dy) = Qltb lat yi).
  { destruct (Qltb lat yi) eqn:E.
    - apply Qltb_true. apply Qltb_true in E. lra.
    - apply Qltb_false. apply Qltb_false in E. lra. }
  assert (Gj : Qltb (lat + dy) (yj + dy) = Qltb lat yj).
  { destruct (Qltb lat yj) eqn:E.
    - apply Qltb_true. apply Qltb_true in E. lra.
    - apply Qltb_false. apply Qltb_false in E. lra. }
  rewrite Gi, Gj.
  destruct (negb (Bool.eqb (Qltb lat yi) (Qltb lat yj))) eqn:G;
    [|reflexivity].
  cbn [andb]. pose proof (Q_guard_distinct _ _ _ G) as Hd.
  set (q := (xj - xi) * (lat - yi) / (yj - yi) + xi).
  assert (Eq : (xj + dx - (xi + dx)) * (lat + dy - (yi + dy))
               / (yj + dy - (yi + dy)) + (xi + dx) == q + dx).
  { unfold q. field. repeat split; intros E; apply Hd; lra. }
  rewrite (Qltb_comp (lng + dx) (lng + dx) _ (q + dx) (Qeq_refl _) Eq).
  destruct (Qltb lng q) eqn:E.
  - apply Qltb_true. apply Qltb_true in E. lra.
  - apply Qltb_false. apply Qltb_false in E. lra.
Qed.

(** X23.  In exact arithmetic the test does not depend on where the ring and
    the point are: moving every vertex and the point by the same amounts in
    longitude and latitude leaves the result unchanged. *)
Theorem isPointInPolygon_translate (dx dy lng lat : Q) (ring : Ring Q) :
  isPointInPolygon (lng + dx, lat + dy) (map (translate dx dy) ring)
  = isPointInPolygon (lng, lat) ring.
Proof.
  rewrite !isPointInPolygon_parity. f_equal. cbn [fst snd].
  rewrite cyclic_edges_map, map_map. apply f_equal, map_ext.
  intros e. apply Q_crosses_translate.
Qed.

(** ** Lookup in the registry that [ZONES] builds *)

Lemma findZone_map_index {num : Type} {N : Number num}
    (colour : nat -> option string) (zones : list (Zone num))
    (point : Coordinate num) :
  forall start : nat,
    found_zone
      (findZone
         (map_index (fun zone i => {| id := id zone; name := name zone;
                                      coordinates := coordinates zone;
                                      color := colour i |}) zones start)
         point)
    = found_zone (findZone zones point).
Proof.
  induction zones as [|z rest IH]; intros start; [reflexivity|].
  simpl map_index. simpl findZone.
  destruct (elem (coordinates z) 0) as [polygon| | |]; try reflexivity.
  simpl bind.
  destruct (isPointInPolygon point polygon) as [[|]| | |]; try reflexivity.
  simpl bind. apply IH.
Qed.

(** X24.  Giving the zones their colours never changes which zone is found:
    [findZone] on the registry that [ZONES] builds finds the zone with the
    id, name and boundary of the zone that [findZone] finds in the data, and
    throws when it throws on the data. *)
Theorem findZone_after_ZONES {num : Type} {N : Number num}
    (FIRE_DISTRICT_ZONES : list (Zone num)) (point : Coordinate num) :
  exists registry : list (Zone num),
    ZONES FIRE_DISTRICT_ZONES = Val registry
    /\ found_zone (findZone registry point)
       = found_zone (findZone FIRE_DISTRICT_ZONES point).
Proof.
  eexists. split; [reflexivity|]. apply findZone_map_index.
Qed.

(** ** The label of a zone whose ring is empty *)

(** X25.  For a zone whose first ring has no vertex,
    [calculatePolygonCenter] does not throw but divides zero by zero: the
    position the load handler asks the map library to place the label at is
    [NaN, NaN].  What happens then is the library's choice: if that call
    returns the zone has its four calls, and if it throws the handler stops
    with that error after the source and the two layers of the zone.  With a
    library that throws on such a position the handler stops. *)
Theorem empty_ring_label (library : MapLibrary float) (zone : Zone float)
    (rest : list (Ring float)) (log : list (MapCall float)) :
  coordinates zone = [] :: rest ->
  exists p : Coordinate float,
    PrimFloat.is_nan (fst p) = true
    /\ PrimFloat.is_nan (snd p) = true
    /\ planned_calls zone
       = zone_layers zone
         ++ [ addMarker (color zone) p ("<strong>" ++ name zone ++ "</strong>") ]
    /\ (make_calls library (zone_layers zone) log
        = (log ++ zone_layers zone, None) ->
        zone_calls library zone log
        = if library (log ++ zone_layers zone)
               (addMarker (color zone) p
                  ("<strong>" ++ name zone ++ "</strong>"))
          then (log ++ planned_calls zone, load_returned)
          else (log ++ zone_layers zone,
                load_refused
                  (addMarker (color zone) p
                     ("<strong>" ++ name zone ++ "</strong>"))))
    /\ zone_calls refuses_nan zone log
       = (log ++ zone_layers zone,
          load_refused
            (addMarker (color zone) p
               ("<strong>" ++ name zone ++ "</strong>"))).
Proof.
  intros E. exists (calculatePolygonCenter []).
  split; [reflexivity|]. split; [reflexivity|].
  assert (Ep : planned_calls zone
               = zone_layers zone
                 ++ [ addMarker (color zone) (calculatePolygonCenter [])
                        ("<strong>" ++ name zone ++ "</strong>") ]).
  { unfold planned_calls. now rewrite E. }
  split; [exact Ep|]. split.
  - intros Hl. unfold zone_calls. rewrite Hl, E.
    cbn [elem index Z.ltb Z.compare Z.to_nat nth_error].
    unfold zone_marker. cbn [make_calls].
    destruct (library (log ++ zone_layers zone) _); [|reflexivity].
    now rewrite Ep, app_assoc.
  - assert (Hl : make_calls refuses_nan (zone_layers zone) log
                 = (log ++ zone_layers zone, None)).
    { unfold zone_layers. cbn [make_calls refuses_nan].
      now rewrite <- !app_assoc. }
    unfold zone_calls. rewrite Hl, E. reflexivity.
Qed.

Lemma empty_ring_label_witness :
  exists p : Coordinate float,
    PrimFloat.is_nan (fst p) = true
    /\ PrimFloat.is_nan (snd p) = true
    /\ zone_calls refuses_nan zone_empty_ring []
       = ([ addSource "hollow" [ [] ];
            addLayer "hollow-fill" fill "hollow" None;
            addLayer "hollow-outline" line "hollow" None ],
          load_refused (addMarker None p "<strong>hollow</strong>")).
Proof.
  destruct (empty_ring_label refuses_nan zone_empty_ring [] [] eq_refl)
    as (p & H1 & H2 & _ & _ & H).
  exists p. split; [exact H1|]. split; [exact H2|exact H].
Defined.
